(** * Forensic analyzer: evaluation metrics, normalisation and
      response recovery

    A shallow embedding of [evaluate.py] (the offline scorer) and of the
    JSON recovery block of [forensic_analyzer_backup.py].

    Modelling choices.
    - A parsed JSON document is the inductive [json]; a Python [dict] read
      from JSON is an association list in key order.
    - A Python [str] is a [string]; every character is a code point below
      256 and [str.strip]/[str.lower] act on it as Python does on that range.
    - A Python [set] of pairs is a [gset (string * string)], a [dict] keyed
      by pairs a [gmap (string * string) _].
    - A Python exception is the [Raise] branch of [result].
    - A Python [float] is a rational; every float operation rounds its exact
      result with a rounding operator [fl].  The theorems hold of every
      rounding with a few properties of round-to-nearest, and [Float.round],
      the rounding of binary64, is shown to have them. *)

From Stdlib Require Import QArith Qround Qpower Lqa Ascii.
From stdpp Require Import gmap strings list fin_maps fin_sets.

Set Warnings "-register-all,-clear-no-such-hyp".

(** ** Parsed JSON values and Python exceptions *)

Inductive json : Type :=
  | JNull : json
  | JBool : bool → json
  | JNum : Q → json
  | JStr : string → json
  | JList : list json → json
  | JDict : list (string * json) → json.

(** What [json.JSONDecodeError(msg, doc, pos)] holds. *)
Record decode_error : Type := DecodeError {
  err_msg : string;
  err_doc : string;
  err_pos : Z
}.

Inductive exn : Type :=
  | AttributeError : exn
  | TypeError : exn
  | ZeroDivisionError : exn
  | Failed : decode_error → exn.

Inductive result (A : Type) : Type :=
  | Ok : A → result A
  | Raise : exn → result A.
Arguments Ok {A} _.
Arguments Raise {A} _.

#[global] Instance result_bind : MBind result := λ A B k r,
  match r with
  | Ok a => k a
  | Raise e => Raise e
  end.

Definition is_ok {A : Type} (r : result A) : Prop :=
  match r with Ok _ => True | Raise _ => False end.

(** ** Python built-ins on parsed JSON *)

Module Py.

(** [bool(x)]. *)
Definition truthy (x : json) : bool :=
  match x with
  | JNull => false
  | JBool b => b
  | JNum q => negb (Qnum q =? 0)%Z
  | JStr s => negb (String.eqb s "")
  | JList l => match l with [] => false | _ => true end
  | JDict d => match d with [] => false | _ => true end
  end.

(** [x or y]. *)
Definition or_else (x y : json) : json := if truthy x then x else y.

Fixpoint assoc (k : string) (d : list (string * json)) : option json :=
  match d with
  | [] => None
  | (k', v) :: d' => if String.eqb k k' then Some v else assoc k d'
  end.

(** [x.get(k, dflt)]: only a [dict] has the method. *)
Definition get (x : json) (k : string) (dflt : json) : result json :=
  match x with
  | JDict d => Ok (default dflt (assoc k d))
  | _ => Raise AttributeError
  end.

Fixpoint chars (s : string) : list json :=
  match s with
  | EmptyString => []
  | String c s' => JStr (String c EmptyString) :: chars s'
  end.

(** The items a [for] loop sees. *)
Definition iter (x : json) : result (list json) :=
  match x with
  | JList l => Ok l
  | JDict d => Ok (JStr <$> d.*1)
  | JStr s => Ok (chars s)
  | _ => Raise TypeError
  end.

(** [len(x)]. *)
Definition len (x : json) : result nat :=
  match x with
  | JList l => Ok (length l)
  | JDict d => Ok (length d)
  | JStr s => Ok (String.length s)
  | _ => Raise TypeError
  end.

(** The receiver of a [str] method. *)
Definition as_str (x : json) : result string :=
  match x with
  | JStr s => Ok s
  | _ => Raise AttributeError
  end.

(** [c.isspace()] for a code point below 256. *)
Definition is_space (c : ascii) : bool :=
  let n := N_of_ascii c in
  ((9 <=? n) && (n <=? 13) || (28 <=? n) && (n <=? 32)
   || (n =? 133) || (n =? 160))%N.

(** [c.lower()] for a code point below 256. *)
Definition lower_char (c : ascii) : ascii :=
  let n := N_of_ascii c in
  if ((65 <=? n) && (n <=? 90)
      || (192 <=? n) && (n <=? 222) && negb (n =? 215))%N
  then ascii_of_N (n + 32) else c.

Fixpoint lower (s : string) : string :=
  match s with
  | EmptyString => EmptyString
  | String c s' => String (lower_char c) (lower s')
  end.

Fixpoint lstrip (s : string) : string :=
  match s with
  | EmptyString => EmptyString
  | String c s' => if is_space c then lstrip s' else s
  end.

Fixpoint rstrip (s : string) : string :=
  match s with
  | EmptyString => EmptyString
  | String c s' =>
      match rstrip s' with
      | EmptyString => if is_space c then EmptyString else String c EmptyString
      | r => String c r
      end
  end.

(** [s.strip()]. *)
Definition strip (s : string) : string := rstrip (lstrip s).

End Py.

(** ** Artifact sets and phase maps (evaluate.py, lines 28-49) *)

Module Evaluate.

(** [(a.get(k) or '')] followed by a [str] method call. *)
Definition field (a : json) (k : string) : result string :=
  x ← Py.get a k JNull;
  Py.as_str (Py.or_else x (JStr "")).

(** Lines 32-33 and 45-46: the comparable key of one artifact entry. *)
Definition normalize (a : json) : result (string * string) :=
  t ← field a "type";
  let a_type := Py.lower (Py.strip t) in
  v ← field a "value";
  let a_val := Py.strip v in
  Ok (a_type, a_val).

(** [bool(s)] of a string. *)
Definition nonempty (s : string) : bool := negb (String.eqb s "").

(** The loop of lines 31-35, from the set built so far. *)
Fixpoint add_artifacts (l : list json) (acc : gset (string * string))
    : result (gset (string * string)) :=
  match l with
  | [] => Ok acc
  | a :: l' =>
      kv ← normalize a;
      add_artifacts l'
        (if nonempty kv.1 && nonempty kv.2 then {[ kv ]} ∪ acc else acc)
  end.

(** [to_artifact_set], lines 28-36. *)
Definition to_artifact_set (artifacts_obj : json)
    : result (gset (string * string)) :=
  artifacts ←
    match artifacts_obj with
    | JDict _ => Py.get artifacts_obj "artifacts" (JList [])
    | _ => Ok (JList [])
    end;
  items ← Py.iter artifacts;
  add_artifacts items ∅.

(** The inner loop of lines 44-48. *)
Fixpoint add_phase (phase_name : json) (l : list json)
    (mapping : gmap (string * string) json)
    : result (gmap (string * string) json) :=
  match l with
  | [] => Ok mapping
  | a :: l' =>
      kv ← normalize a;
      add_phase phase_name l'
        (if nonempty kv.1 && nonempty kv.2 && Py.truthy phase_name
         then <[ kv := phase_name ]> mapping else mapping)
  end.

(** The outer loop of lines 42-48. *)
Fixpoint add_phases (phases : list json)
    (mapping : gmap (string * string) json)
    : result (gmap (string * string) json) :=
  match phases with
  | [] => Ok mapping
  | p :: phases' =>
      phase_name ← Py.get p "phase" (JStr "");
      arts ← Py.get p "artifacts" (JList []);
      items ← Py.iter (Py.or_else arts (JList []));
      mapping' ← add_phase phase_name items mapping;
      add_phases phases' mapping'
  end.

(** [to_phase_map], lines 39-49. *)
Definition to_phase_map (kill_chain_obj : json)
    : result (gmap (string * string) json) :=
  phases ←
    match kill_chain_obj with
    | JDict _ => Py.get kill_chain_obj "kill_chain_mapping" (JList [])
    | _ => Ok (JList [])
    end;
  items ← Py.iter phases;
  add_phases items ∅.

End Evaluate.

(** ** Scores (evaluate.py, lines 52-67) *)

Local Open Scope Q_scope.

Module Score.

(** [a / b] on two non-negative [int] counts: the rounded exact quotient. *)
Definition int_div (fl : Q → Q) (a b : nat) : result Q :=
  match b with
  | O => Raise ZeroDivisionError
  | S _ => Ok (fl (inject_Z (Z.of_nat a) / inject_Z (Z.of_nat b)))
  end.

(** [x / y] on two floats. *)
Definition float_div (fl : Q → Q) (x y : Q) : result Q :=
  if Qeq_bool y 0 then Raise ZeroDivisionError else Ok (fl (x / y)).

(** [x > 0] on floats. *)
Definition gt0 (x : Q) : bool := if Qlt_le_dec 0 x then true else false.

(** [precision_recall_f1], evaluate.py lines 52-59. *)
Definition precision_recall_f1 (fl : Q → Q)
    (pred truth : gset (string * string)) : result (Q * Q * Q) :=
  let tp := size (pred ∩ truth) in
  let fp := size (pred ∖ truth) in
  let fn := size (truth ∖ pred) in
  precision ← (if (0 <? tp + fp)%nat then int_div fl tp (tp + fp) else Ok 0);
  recall ← (if (0 <? tp + fn)%nat then int_div fl tp (tp + fn) else Ok 0);
  f1 ← (if gt0 (fl (precision + recall))
        then float_div fl (fl (fl (2 * precision) * recall))
                          (fl (precision + recall))
        else Ok 0);
  Ok (precision, recall, f1).

(** [mapping_accuracy], evaluate.py lines 62-67.  [V] is the type of the
    phase labels and [veq] their [==]. *)
Definition mapping_accuracy {V : Type} (veq : V → V → bool) (fl : Q → Q)
    (pred_map truth_map : gmap (string * string) V) : result Q :=
  let keys := dom truth_map ∩ dom pred_map in
  if decide (keys = ∅) then Ok 0
  else
    let agree k :=
      match pred_map !! k, truth_map !! k with
      | Some a, Some b => veq a b
      | None, None => true
      | _, _ => false
      end in
    let correct := length (filter (λ k, agree k = true) (elements keys)) in
    int_div fl correct (size keys).

End Score.

(** ** The rounding of binary64 arithmetic

    Round-to-nearest, ties to even, with 53 significant bits.  The exponent
    range is left unbounded: the value is that of a Python [float]
    operation whenever the exact result is zero or has a magnitude in the
    normal range, as every result of the scores has. *)

Module Float.

(** The exponent of the binade of a positive rational: the floor of its
    base-2 logarithm. *)
Definition ilog2 (x : Q) : Z :=
  let k := (Z.log2 (Qnum x) - Z.log2 (Zpos (Qden x)))%Z in
  if Qle_bool (2 ^ k) x then k else (k - 1)%Z.

(** Round to the nearest integer, ties to even. *)
Definition rint (q : Q) : Z :=
  let f := Qfloor q in
  match Qcompare (q - inject_Z f) (1 # 2) with
  | Lt => f
  | Gt => (f + 1)%Z
  | Eq => if Z.even f then f else (f + 1)%Z
  end.

(** Round a positive rational to 53 significant bits. *)
Definition round_pos (x : Q) : Q :=
  let u := 2 ^ (ilog2 x - 52) in
  inject_Z (rint (x / u)) * u.

(** binary64 round-to-nearest-even, the exponent range left unbounded. *)
Definition round (x : Q) : Q :=
  match Qcompare 0 x with
  | Lt => round_pos x
  | Gt => - round_pos (- x)
  | Eq => 0
  end.

End Float.

Local Close Scope Q_scope.

(** ** Response recovery (forensic_analyzer_backup.py, lines 134-158)

    The block is read by its [try]/[except]/[if] keywords.  [json.loads] is
    the parameter [json_loads]; a [print] appends an [event] to the log. *)

Module Recovery.

Inductive event : Type :=
  | PrintedParseError : decode_error → event
  | PrintedRaw : string → event
  | PrintedCount : nat → event
  | PrintedCountMarkdown : nat → event.

Definition marker : string := "```json".
Definition fence : string := "```".

(** [sub in s]. *)
Definition contains (sub s : string) : bool :=
  match String.index 0 sub s with Some _ => true | None => false end.

(** [s.find(sub, start)]. *)
Definition find (s sub : string) (start : nat) : Z :=
  match String.index start sub s with
  | Some i => Z.of_nat i
  | None => (-1)%Z
  end.

(** [s[start:stop]] for [0 <= start <= stop]. *)
Definition slice (s : string) (start stop : Z) : string :=
  String.substring (Z.to_nat start) (Z.to_nat (stop - start)) s.

(** [len(artifacts_json.get('artifacts', []))], lines 139 and 153. *)
Definition artifact_count (artifacts_json : json) : result nat :=
  x ← Py.get artifacts_json "artifacts" (JList []);
  Py.len x.

(** Lines 139-141 and 153-155: count the artifacts of the parsed value,
    print the count and return the value. *)
Definition deliver (log : list event) (mk : nat → event)
    (artifacts_json : json) : list event * result json :=
  match artifact_count artifacts_json with
  | Ok n => (log ++ [mk n], Ok artifacts_json)
  | Raise x => (log, Raise x)
  end.

(** Lines 134-158: the log of prints and the value returned or the
    exception that leaves the block. *)
Definition parse_response (json_loads : string → decode_error + json)
    (content : string) : list event * result json :=
  let response_text := Py.strip content in
  match json_loads response_text with
  | inr artifacts_json => deliver [] PrintedCount artifacts_json
  | inl e =>
      let log := [PrintedParseError e; PrintedRaw response_text] in
      let failed := (log, Raise (Failed e)) in
      if contains marker response_text then
        let json_start := (find response_text marker 0 + 7)%Z in
        let json_end := find response_text fence (Z.to_nat json_start) in
        if (json_end >? json_start)%Z then
          let json_text := Py.strip (slice response_text json_start json_end) in
          match json_loads json_text with
          | inr artifacts_json =>
              deliver log PrintedCountMarkdown artifacts_json
          | inl _ => failed
          end
        else failed
      else failed
  end.

End Recovery.

(** ** The vocabulary of the specification *)

Module Spec.

(** Every character of [s] is whitespace. *)
Fixpoint all_space (s : string) : bool :=
  match s with
  | EmptyString => true
  | String c s' => Py.is_space c && all_space s'
  end.

Definition first_char (s : string) : option ascii :=
  match s with
  | EmptyString => None
  | String c _ => Some c
  end.

Fixpoint last_char (s : string) : option ascii :=
  match s with
  | EmptyString => None
  | String c s' =>
      match s' with
      | EmptyString => Some c
      | String _ _ => last_char s'
      end
  end.

(** [s] neither starts nor ends with whitespace. *)
Definition trimmed (s : string) : Prop :=
  (∀ c, first_char s = Some c → Py.is_space c = false) ∧
  (∀ c, last_char s = Some c → Py.is_space c = false).

(** [mid] is [s] without its leading and trailing whitespace. *)
Definition stripped_of (s mid : string) : Prop :=
  ∃ pre post, s = pre +:+ mid +:+ post ∧
    all_space pre = true ∧ all_space post = true ∧ trimmed mid.

(** [low] is [s] with every character lower-cased. *)
Definition lowered_of (s low : string) : Prop :=
  String.length low = String.length s ∧
  ∀ i, String.get i low = Py.lower_char <$> String.get i s.

(** Field [k] of the record [d] holds the string [o], or is absent (the
    key is missing or holds [null]) when [o] is [None]. *)
Definition field_is (d : list (string * json)) (k : string)
    (o : option string) : Prop :=
  match o with
  | Some s => Py.assoc k d = Some (JStr s)
  | None => Py.assoc k d = None ∨ Py.assoc k d = Some JNull
  end.

(** The entries a document lists under [key]: those of the list found
    there, none when the key is absent or the document is not an object. *)
Inductive has_entries (key : string) : json → list json → Prop :=
  | entries_listed d l :
      Py.assoc key d = Some (JList l) → has_entries key (JDict d) l
  | entries_absent d :
      Py.assoc key d = None → has_entries key (JDict d) []
  | entries_not_object x :
      (∀ d, x ≠ JDict d) → has_entries key x [].

(** An artifact entry of the right shape: an object whose [type] and
    [value] are strings or absent. *)
Definition artifact_record (a : json) : Prop :=
  ∃ d t v, a = JDict d ∧ field_is d "type" t ∧ field_is d "value" v.

(** The artifact entries of the phase group [d]: those of the list under
    [artifacts], none when the key is absent or holds a falsy value. *)
Inductive group_entries (d : list (string * json)) : list json → Prop :=
  | group_listed l :
      Py.assoc "artifacts" d = Some (JList l) → group_entries d l
  | group_absent :
      Py.assoc "artifacts" d = None → group_entries d []
  | group_falsy x :
      Py.assoc "artifacts" d = Some x → Py.truthy x = false →
      group_entries d [].

(** The phase group [p] has phase name [g.1] (the empty string when the
    key is absent) and artifact entries [g.2]. *)
Definition is_group (p : json) (g : json * list json) : Prop :=
  ∃ d, p = JDict d ∧
    g.1 = default (JStr "") (Py.assoc "phase" d) ∧ group_entries d g.2.

(** The group [g] contributes the identity pair [k]: its phase name is
    not empty and one of its entries normalises to [k], both components
    non-empty. *)
Definition holds (g : json * list json) (k : string * string) : Prop :=
  Py.truthy g.1 = true ∧ k.1 ≠ "" ∧ k.2 ≠ "" ∧
  ∃ a, a ∈ g.2 ∧ Evaluate.normalize a = Ok k.

(** [sub] occurs in [s] at position [i]. *)
Definition occurs_at (sub s : string) (i : nat) : Prop :=
  String.substring i (String.length sub) s = sub.

(** [i] is the position of the first occurrence of [sub] in [s] at or
    after [start]. *)
Definition first_from (sub s : string) (start i : nat) : Prop :=
  start ≤ i ∧ occurs_at sub s i ∧ ∀ p, start ≤ p → p < i → ¬ occurs_at sub s p.

(** [mid] is the text strictly between the first marker of [text], which
    starts at [i] and ends before [b], and the next closing fence after
    it, which starts at [j]. *)
Definition fenced (text mid : string) : Prop :=
  ∃ i j,
    let b := i + String.length Recovery.marker in
    first_from Recovery.marker text 0 i ∧
    first_from Recovery.fence text b j ∧
    mid = String.substring b (j - b) text.

(** A JSON object whose [artifacts] entry, when present, has a length. *)
Definition sized_object (x : json) : Prop :=
  ∃ d, x = JDict d ∧
    match Py.assoc "artifacts" d with
    | None | Some (JList _) | Some (JDict _) | Some (JStr _) => True
    | Some _ => False
    end.

End Spec.

(** ** Sample data *)

Module Sample.

Definition hash_abc : string * string := ("hash", "abc123").
Definition ip_10 : string * string := ("ip", "10.0.0.1").
Definition domain_evil : string * string := ("domain", "evil.com").

Definition artifact (t v : string) : json :=
  JDict [("type", JStr t); ("value", JStr v)].

(** One artifact listed under two phase groups. *)
Definition twice_mapped : json :=
  JDict [("kill_chain_mapping", JList [
    JDict [("phase", JStr "Initial Access");
           ("artifacts", JList [artifact " IP " "1.2.3.4"])];
    JDict [("phase", JStr "Persistence");
           ("artifacts", JList [artifact "ip" "1.2.3.4 "])]])].

(** An artifact list holding a number where a record is expected. *)
Definition number_entry : json := JDict [("artifacts", JList [JNum 5%Q])].

(** The two artifact sets and phase maps of the end-to-end scenarios. *)
Definition predicted : gset (string * string) := {[hash_abc; ip_10]}.
Definition truth : gset (string * string) := {[hash_abc; domain_evil]}.
Definition predicted_map : gmap (string * string) string :=
  {[hash_abc := "Exfiltration"; ip_10 := "Initial Access"]}.
Definition truth_map : gmap (string * string) string :=
  {[hash_abc := "Exfiltration"]}.

(** An extraction result with one usable and one empty-valued artifact. *)
Definition extraction : json :=
  JDict [("artifacts", JList [artifact " IP " "1.2.3.4"; artifact "ip" " "])].

(** A stand-in for [json.loads]: it knows two JSON texts and reports
    every other text as not JSON. *)
Definition sample_loads (s : string) : decode_error + json :=
  if String.eqb s "{}" then inr (JDict [])
  else if String.eqb s "[1]" then inr (JList [JNum 1%Q])
  else inl (DecodeError "Expecting value" s 0).

Definition groups_of_twice_mapped : list (json * list json) :=
  [(JStr "Initial Access", [artifact " IP " "1.2.3.4"]);
   (JStr "Persistence", [artifact "ip" "1.2.3.4 "])].

End Sample.

(** ** Scoring two loaded documents (evaluate.py, lines 80-88) *)

Module Main.

(** [x == y] on two parsed JSON values; a [dict] has each key once. *)
Fixpoint py_eq (x y : json) {struct x} : bool :=
  match x, y with
  | JNull, JNull => true
  | JBool a, JBool b => Bool.eqb a b
  | JBool a, JNum q | JNum q, JBool a => Qeq_bool q (if a then 1 else 0)%Q
  | JNum p, JNum q => Qeq_bool p q
  | JStr s, JStr t => String.eqb s t
  | JList l, JList m =>
      (fix all2 (l m : list json) : bool :=
         match l, m with
         | [], [] => true
         | a :: l', b :: m' => py_eq a b && all2 l' m'
         | _, _ => false
         end) l m
  | JDict d, JDict e =>
      (length d =? length e)%nat &&
      (fix all (d : list (string * json)) : bool :=
         match d with
         | [] => true
         | (k, v) :: d' =>
             match Py.assoc k e with
             | Some w => py_eq v w
             | None => false
             end && all d'
         end) d
  | _, _ => false
  end.

(** Lines 80-88 of [main], from the two documents that lines 76-77 load
    to the four scores that lines 90-92 print. *)
Definition score_documents (fl : Q → Q) (pred truth : json)
    : result (Q * Q * Q * Q) :=
  pa ← Py.get pred "artifacts" (JDict []);
  pred_artifacts ← Evaluate.to_artifact_set pa;
  ta ← Py.get truth "artifacts" (JDict []);
  truth_artifacts ← Evaluate.to_artifact_set ta;
  prf ← Score.precision_recall_f1 fl pred_artifacts truth_artifacts;
  pk ← Py.get pred "kill_chain_analysis" (JDict []);
  pred_phase_map ← Evaluate.to_phase_map pk;
  tk ← Py.get truth "kill_chain_analysis" (JDict []);
  truth_phase_map ← Evaluate.to_phase_map tk;
  acc ← Score.mapping_accuracy py_eq fl pred_phase_map truth_phase_map;
  Ok (prf, acc).

End Main.

(** ** The recovery block of the second stage
       (forensic_analyzer_backup.py, lines 296-320) *)

Module Reasoning.

Inductive event : Type :=
  | PrintedParseError : decode_error → event
  | PrintedRaw : string → event
  | PrintedChains : nat → event
  | PrintedChainsMarkdown : nat → event.

(** [len(reasoning_json.get('reasoning_chains', []))], lines 301, 315. *)
Definition chain_count (reasoning_json : json) : result nat :=
  x ← Py.get reasoning_json "reasoning_chains" (JList []);
  Py.len x.

(** Lines 301-303 and 315-317. *)
Definition deliver (log : list event) (mk : nat → event)
    (reasoning_json : json) : list event * result json :=
  match chain_count reasoning_json with
  | Ok n => (log ++ [mk n], Ok reasoning_json)
  | Raise x => (log, Raise x)
  end.

(** Lines 296-320. *)
Definition parse_response (json_loads : string → decode_error + json)
    (content : string) : list event * result json :=
  let response_text := Py.strip content in
  match json_loads response_text with
  | inr reasoning_json => deliver [] PrintedChains reasoning_json
  | inl e =>
      let log := [PrintedParseError e; PrintedRaw response_text] in
      let failed := (log, Raise (Failed e)) in
      if Recovery.contains Recovery.marker response_text then
        let json_start :=
          (Recovery.find response_text Recovery.marker 0 + 7)%Z in
        let json_end :=
          Recovery.find response_text Recovery.fence (Z.to_nat json_start) in
        if (json_end >? json_start)%Z then
          let json_text :=
            Py.strip (Recovery.slice response_text json_start json_end) in
          match json_loads json_text with
          | inr reasoning_json =>
              deliver log PrintedChainsMarkdown reasoning_json
          | inl _ => failed
          end
        else failed
      else failed
  end.

End Reasoning.

(** ** The two stages
       (forensic_analyzer_backup.py, lines 121-162 and 280-324)

    The chat completion is the parameter [create]: it raises (left) or
    gives the content of the first message, which may be [None].  The
    prompts are constants, so the call of the first stage is a function of
    the report text and that of the second a function of the serialised
    artifacts. *)

Module Pipeline.

Inductive cause (E : Type) : Type :=
  | CallFailed : E → cause E
  | Raised : exn → cause E.
Arguments CallFailed {E} _.
Arguments Raised {E} _.

Inductive event (E : Type) : Type :=
  | ExtractionStarted : event E
  | Extraction : Recovery.event → event E
  | ExtractionFailed : cause E → event E
  | ReasoningStarted : event E
  | ReasoningStep : Reasoning.event → event E
  | ReasoningFailed : cause E → event E.
Arguments ExtractionStarted {E}.
Arguments Extraction {E} _.
Arguments ExtractionFailed {E} _.
Arguments ReasoningStarted {E}.
Arguments ReasoningStep {E} _.
Arguments ReasoningFailed {E} _.

(** What a call leaves: the value returned, or the status of [sys.exit]. *)
Inductive outcome : Type :=
  | Returned : json → outcome
  | Exited : Z → outcome.

(** [content.strip()] of line 134 needs a string. *)
Definition content_text {E : Type} (r : E + option string)
    : cause E + string :=
  match r with
  | inl e => inl (CallFailed e)
  | inr None => inl (Raised AttributeError)
  | inr (Some s) => inr s
  end.

(** [extract_artifacts], lines 121-162. *)
Definition extract_artifacts {E : Type} (create : string → E + option string)
    (json_loads : string → decode_error + json) (report_text : string)
    : list (event E) * outcome :=
  match content_text (create report_text) with
  | inl c => ([ExtractionStarted; ExtractionFailed c], Exited 1)
  | inr content =>
      let '(log, r) := Recovery.parse_response json_loads content in
      match r with
      | Ok artifacts_json =>
          (ExtractionStarted :: (Extraction <$> log), Returned artifacts_json)
      | Raise x =>
          (ExtractionStarted :: (Extraction <$> log)
             ++ [ExtractionFailed (Raised x)], Exited 1)
      end
  end.

(** [reason_and_map], lines 280-324. *)
Definition reason_and_map {E : Type} (create : json → E + option string)
    (json_loads : string → decode_error + json) (artifacts_json : json)
    : list (event E) * outcome :=
  match content_text (create artifacts_json) with
  | inl c => ([ReasoningStarted; ReasoningFailed c], Exited 1)
  | inr content =>
      let '(log, r) := Reasoning.parse_response json_loads content in
      match r with
      | Ok reasoning_json =>
          (ReasoningStarted :: (ReasoningStep <$> log),
           Returned reasoning_json)
      | Raise x =>
          (ReasoningStarted :: (ReasoningStep <$> log)
             ++ [ReasoningFailed (Raised x)], Exited 1)
      end
  end.

End Pipeline.

(** ** More vocabulary *)

Module Shape.

(** Field [k] of [d] can be normalised: it is absent, a string, or falsy. *)
Definition usable (d : list (string * json)) (k : string) : Prop :=
  match Py.assoc k d with
  | None | Some (JStr _) => True
  | Some x => Py.truthy x = false
  end.

(** An entry whose normalisation does not raise. *)
Definition normalizable (a : json) : Prop :=
  ∃ d, a = JDict d ∧ usable d "type" ∧ usable d "value".

(** A string that normalisation of a type leaves alone. *)
Definition normal_type (t : string) : Prop :=
  t ≠ "" ∧ Py.strip t = t ∧ Py.lower t = t.

(** A string that normalisation of a value leaves alone. *)
Definition normal_value (v : string) : Prop :=
  v ≠ "" ∧ Py.strip v = v.

(** A JSON object whose [reasoning_chains] entry, when present, has a
    length. *)
Definition chains_object (x : json) : Prop :=
  ∃ d, x = JDict d ∧
    match Py.assoc "reasoning_chains" d with
    | None | Some (JList _) | Some (JDict _) | Some (JStr _) => True
    | Some _ => False
    end.

(** The value a recovery block settles on for the trimmed [text]: the
    parse of the whole text, or after its failure the parse of the trimmed
    fenced text. *)
Definition parsed (json_loads : string → decode_error + json)
    (text : string) (x : json) : Prop :=
  json_loads text = inr x ∨
  ∃ e mid, json_loads text = inl e ∧ Spec.fenced text mid ∧
    json_loads (Py.strip mid) = inr x.

(** The artifacts sub-document that lists [entries]. *)
Definition listing (entries : list json) : json :=
  JDict [("artifacts", JList entries)].

(** The section [k] of the document [d], the empty object when absent. *)
Definition part (d : list (string * json)) (k : string) : json :=
  default (JDict []) (Py.assoc k d).

End Shape.

(** * Properties *)

(** ** Stripping and lower-casing *)

Section Strings.

Import Py Spec.

Lemma is_space_lower_char c : is_space (lower_char c) = is_space c.
Proof. by destruct c as [[] [] [] [] [] [] [] []]. Qed.

Lemma lower_lstrip s : lower (lstrip s) = lstrip (lower s).
Proof.
  induction s as [|c s IH]; [done|]. simpl.
  rewrite is_space_lower_char. by destruct (is_space c).
Qed.

Lemma lower_rstrip s : lower (rstrip s) = rstrip (lower s).
Proof.
  induction s as [|c s IH]; [done|]. simpl. rewrite <- IH.
  destruct (rstrip s) as [|c' r]; simpl.
  - rewrite is_space_lower_char. by destruct (is_space c).
  - done.
Qed.

(** Stripping and lower-casing commute. *)
Lemma lower_strip s : lower (strip s) = strip (lower s).
Proof. unfold strip. by rewrite lower_rstrip, lower_lstrip. Qed.

Lemma lowered_of_lower s : lowered_of s (lower s).
Proof.
  split.
  - induction s as [|c s IH]; [done|]. simpl. by rewrite IH.
  - induction s as [|c s IH]; intros i; [done|].
    destruct i as [|i]; [done|]. simpl. apply IH.
Qed.

Lemma lstrip_split s :
  ∃ pre, s = pre +:+ lstrip s ∧ all_space pre = true.
Proof.
  induction s as [|c s (pre & Hs & Hpre)].
  - by exists EmptyString.
  - simpl. destruct (is_space c) eqn:Hc.
    + exists (String c pre). split.
      * change (String c s = String c (pre +:+ lstrip s)). by f_equal.
      * simpl. by rewrite Hc, Hpre.
    + by exists EmptyString.
Qed.

Lemma lstrip_first s c :
  first_char (lstrip s) = Some c → is_space c = false.
Proof.
  induction s as [|c' s IH]; [done|]. simpl.
  destruct (is_space c') eqn:Hc; [done|]. simpl. by intros [= <-].
Qed.

Lemma rstrip_split s :
  ∃ post, s = rstrip s +:+ post ∧ all_space post = true.
Proof.
  induction s as [|c s (post & Hs & Hpost)].
  - by exists EmptyString.
  - simpl. destruct (rstrip s) as [|c' r] eqn:Hr.
    + destruct (is_space c) eqn:Hc.
      * exists (String c post). split.
        -- change (String c s = String c post). f_equal. exact Hs.
        -- simpl. by rewrite Hc, Hpost.
      * exists post. split; [|done].
        change (String c s = String c post). f_equal. exact Hs.
    + exists post. split; [|done].
      change (String c s = String c (String c' r +:+ post)). by f_equal.
Qed.

Lemma rstrip_last s c :
  last_char (rstrip s) = Some c → is_space c = false.
Proof.
  induction s as [|c' s IH]; [done|]. simpl.
  destruct (rstrip s) as [|c'' r] eqn:Hr.
  - destruct (is_space c') eqn:Hc; [done|]. simpl. by intros [= <-].
  - simpl. exact IH.
Qed.

Lemma rstrip_first s c :
  first_char (rstrip s) = Some c → first_char s = Some c.
Proof.
  destruct s as [|c' s]; [done|]. simpl.
  destruct (rstrip s); [destruct (is_space c')|]; done.
Qed.

(** [strip] removes exactly the leading and trailing whitespace. *)
Lemma stripped_of_strip s : stripped_of s (strip s).
Proof.
  destruct (lstrip_split s) as (pre & Hs & Hpre).
  destruct (rstrip_split (lstrip s)) as (post & Hl & Hpost).
  exists pre, post. unfold strip. repeat split; try done.
  - by rewrite <- Hl.
  - intros c Hc. apply rstrip_first in Hc. by eapply lstrip_first.
  - apply rstrip_last.
Qed.

Lemma lstrip_all_space pre s :
  all_space pre = true → lstrip (pre +:+ s) = lstrip s.
Proof.
  induction pre as [|c pre IH]; [done|]. simpl.
  intros [Hc Hpre]%andb_prop. rewrite Hc. by apply IH.
Qed.

Lemma lstrip_blank post :
  all_space post = true → lstrip post = EmptyString.
Proof.
  induction post as [|c post IH]; [done|]. simpl.
  intros [Hc Hpost]%andb_prop. rewrite Hc. by apply IH.
Qed.

Lemma rstrip_all_space post :
  all_space post = true → rstrip post = EmptyString.
Proof.
  induction post as [|c post IH]; [done|]. simpl.
  intros [Hc Hpost]%andb_prop. by rewrite IH, Hc.
Qed.

Lemma rstrip_cons c s :
  rstrip (String c s) =
    match rstrip s with
    | EmptyString => if is_space c then EmptyString else String c EmptyString
    | String _ _ as r => String c r
    end.
Proof. done. Qed.

Lemma rstrip_trimmed mid post :
  (∀ c, last_char mid = Some c → is_space c = false) →
  all_space post = true → rstrip (mid +:+ post) = mid.
Proof.
  intros Hlast Hpost. induction mid as [|c mid IH].
  - by apply rstrip_all_space.
  - change (rstrip (String c (mid +:+ post)) = String c mid).
    rewrite rstrip_cons. destruct mid as [|c' mid].
    + change (EmptyString +:+ post) with post.
      rewrite (rstrip_all_space _ Hpost). by rewrite (Hlast c eq_refl).
    + rewrite IH; [done|]. intros c0 Hc0. by apply Hlast.
Qed.

(** ... and nothing else does: the stripped string is unique. *)
Lemma stripped_of_inv s mid : stripped_of s mid → mid = strip s.
Proof.
  intros (pre & post & -> & Hpre & Hpost & Hfirst & Hlast).
  unfold strip. rewrite lstrip_all_space by done.
  destruct mid as [|c mid].
  - change (EmptyString +:+ post) with post.
    by rewrite lstrip_blank.
  - assert (lstrip (String c mid +:+ post) = String c mid +:+ post) as ->.
    { change (String c mid +:+ post) with (String c (mid +:+ post)).
      simpl. by rewrite (Hfirst c eq_refl). }
    symmetry. by apply rstrip_trimmed.
Qed.

End Strings.

(** ** Counting over shared keys *)

Lemma filter_on_elements {A} (P1 P2 : A → Prop)
    `{!∀ x, Decision (P1 x), !∀ x, Decision (P2 x)} (l : list A) :
  (∀ x, x ∈ l → P1 x ↔ P2 x) → filter P1 l = filter P2 l.
Proof.
  induction l as [|a l IH]; intros HP; [done|].
  rewrite !filter_cons.
  rewrite IH by (intros x Hx; apply HP; by right).
  destruct (decide (P1 a)) as [H1|H1], (decide (P2 a)) as [H2|H2];
    try done; exfalso; apply (HP a) in H1 || apply (HP a) in H2;
    done || by left.
Qed.

Lemma size_filter_elements {A} `{Countable A} (P : A → Prop)
    `{!∀ x, Decision (P x)} (X : gset A) :
  size (filter P X) = length (filter P (elements X)).
Proof.
  unfold size, set_size. simpl. apply Permutation_length.
  apply NoDup_Permutation.
  - apply NoDup_elements.
  - apply NoDup_filter, NoDup_elements.
  - intros x. rewrite elem_of_elements, elem_of_filter, list_elem_of_filter.
    by rewrite elem_of_elements.
Qed.

Lemma agree_labels (pm tm : gmap (string * string) string) k :
  k ∈ dom tm ∩ dom pm →
  match pm !! k, tm !! k with
  | Some a, Some b => String.eqb a b
  | None, None => true
  | _, _ => false
  end = true ↔ pm !! k = tm !! k.
Proof.
  rewrite elem_of_intersection, !elem_of_dom.
  intros [[b ->] [a ->]]. rewrite String.eqb_eq. naive_solver.
Qed.

(** ** The scores *)

Local Open Scope Q_scope.

Section Steps.

Import Score.

Variable fl : Q → Q.

Lemma gt0_true x : gt0 x = true ↔ 0 < x.
Proof. unfold gt0. destruct (Qlt_le_dec 0 x); split; try done; lra. Qed.

Lemma gt0_false x : gt0 x = false ↔ x <= 0.
Proof. unfold gt0. destruct (Qlt_le_dec 0 x); split; try done; lra. Qed.

Lemma gt0_Qeq x y : x == y → gt0 x = gt0 y.
Proof.
  intros Hxy. destruct (gt0 y) eqn:Hy.
  - apply gt0_true. apply gt0_true in Hy. lra.
  - apply gt0_false. apply gt0_false in Hy. lra.
Qed.

(** The guard of lines 56 and 57 keeps the division from raising. *)
Lemma ratio_ok (a b : nat) :
  ∃ q, (if (0 <? a + b)%nat then int_div fl a (a + b) else Ok 0) = Ok q ∧
    ((a + b = 0)%nat → q = 0) ∧
    ((a + b ≠ 0)%nat →
       q = fl (inject_Z (Z.of_nat a) / inject_Z (Z.of_nat (a + b)))).
Proof.
  destruct (a + b)%nat as [|n] eqn:Hab.
  - exists 0. by repeat split.
  - eexists. split; [reflexivity|]. by split.
Qed.

(** So does the guard of line 58. *)
Lemma f1_ok (n p r : Q) :
  ∃ f, (if gt0 (fl (p + r)) then float_div fl n (fl (p + r)) else Ok 0)
         = Ok f ∧
    (fl (p + r) <= 0 → f = 0) ∧
    (0 < fl (p + r) → f = fl (n / fl (p + r))).
Proof.
  destruct (gt0 (fl (p + r))) eqn:Hgt.
  - apply gt0_true in Hgt. unfold float_div.
    destruct (Qeq_bool (fl (p + r)) 0) eqn:Hz.
    + apply Qeq_bool_eq in Hz. lra.
    + eexists. split; [reflexivity|]. split; [lra|done].
  - apply gt0_false in Hgt. exists 0. split; [done|]. split; [done|lra].
Qed.

(** [precision_recall_f1] step by step. *)
Lemma precision_recall_f1_steps (pred truth : gset (string * string)) :
  let tp := size (pred ∩ truth) in
  let fp := size (pred ∖ truth) in
  let fn := size (truth ∖ pred) in
  ∃ p r f,
    (if (0 <? tp + fp)%nat then int_div fl tp (tp + fp) else Ok 0) = Ok p ∧
    (if (0 <? tp + fn)%nat then int_div fl tp (tp + fn) else Ok 0) = Ok r ∧
    (if gt0 (fl (p + r))
     then float_div fl (fl (fl (2 * p) * r)) (fl (p + r)) else Ok 0) = Ok f ∧
    precision_recall_f1 fl pred truth = Ok (p, r, f).
Proof.
  intros tp fp fn. unfold precision_recall_f1. fold tp fp fn.
  destruct (ratio_ok tp fp) as (p & Hp & _).
  destruct (ratio_ok tp fn) as (r & Hr & _).
  destruct (f1_ok (fl (fl (2 * p) * r)) p r) as (f & Hf & _).
  exists p, r, f. rewrite Hp, Hr. simpl. by rewrite Hf.
Qed.

Lemma counts_swap (pred truth : gset (string * string)) :
  size (truth ∩ pred) = size (pred ∩ truth).
Proof. f_equal. apply (comm_L (∩)). Qed.

(** The emptiness test of line 64 keeps the division of line 67 from
    raising. *)
Lemma mapping_accuracy_ok {V} (veq : V → V → bool)
    (pm tm : gmap (string * string) V) :
  is_ok (mapping_accuracy veq fl pm tm).
Proof.
  unfold mapping_accuracy. case_decide as HK; [done|].
  destruct (size (dom tm ∩ dom pm)) as [|n] eqn:Hn; [|done].
  by apply size_empty_iff, leibniz_equiv in Hn.
Qed.

Lemma mapping_accuracy_absent {V} (veq : V → V → bool)
    (pm tm : gmap (string * string) V) :
  pm = ∅ ∨ tm = ∅ → mapping_accuracy veq fl pm tm = Ok 0.
Proof.
  intros Hempty. unfold mapping_accuracy. rewrite decide_True; [done|].
  destruct Hempty as [-> | ->]; rewrite dom_empty_L; set_solver.
Qed.

End Steps.

Section Absent.

Import Score.

Variable fl : Q → Q.
Hypothesis fl_proper : ∀ x y, x == y → fl x == fl y.
Hypothesis fl_0 : fl 0 == 0.

Lemma ratio_of_none (b : nat) q :
  (if (0 <? 0 + b)%nat then int_div fl 0 (0 + b) else Ok 0) = Ok q →
  q == 0.
Proof.
  destruct (ratio_ok fl 0 b) as (q' & -> & Hz & Hnz). intros [= <-].
  destruct (decide (0 + b = 0)%nat) as [Hb|Hb].
  - by rewrite (Hz Hb).
  - rewrite (Hnz Hb), <- fl_0. apply fl_proper.
    unfold Qdiv. apply Qmult_0_l.
Qed.

(** With either set empty every score is zero. *)
Lemma precision_recall_f1_absent (S T : gset (string * string)) :
  S = ∅ ∨ T = ∅ →
  ∃ p r f, precision_recall_f1 fl S T = Ok (p, r, f) ∧
    p == 0 ∧ r == 0 ∧ f == 0.
Proof.
  intros Hempty.
  destruct (precision_recall_f1_steps fl S T)
    as (p & r & f & Hp & Hr & Hf & Hprf).
  assert (size (S ∩ T) = 0%nat) as Htp.
  { apply size_empty_iff. destruct Hempty as [-> | ->]; set_solver. }
  rewrite Htp in Hp, Hr.
  apply ratio_of_none in Hp. apply ratio_of_none in Hr.
  exists p, r, f. split_and!; try done.
  destruct (f1_ok fl (fl (fl (2 * p) * r)) p r) as (f' & Hf' & Hz & _).
  rewrite Hf in Hf'. injection Hf' as <-.
  rewrite Hz; [reflexivity|].
  assert (fl (p + r) == fl 0) as -> by (apply fl_proper; lra).
  lra.
Qed.

End Absent.

(** [fl] is the rounding of float operations.  The hypotheses are those of
    round-to-nearest: it depends on the value only, is monotone on the
    non-negative numbers, leaves 0 and 1 alone, and doubling a rounded
    value of [0, 1] is exact. *)

Section Rounding.

Import Score.

Variable fl : Q → Q.
Hypothesis fl_proper : ∀ x y, x == y → fl x == fl y.
Hypothesis fl_mono : ∀ x y, 0 <= x → x <= y → fl x <= fl y.
Hypothesis fl_0 : fl 0 == 0.
Hypothesis fl_1 : fl 1 == 1.
Hypothesis fl_double : ∀ x, 0 <= x <= 1 → fl (2 * fl x) == 2 * fl x.

Implicit Types pred truth : gset (string * string).

#[local] Instance fl_Proper : Proper (Qeq ==> Qeq) fl.
Proof. intros x y. apply fl_proper. Qed.

Lemma ratio_range (a b : nat) :
  (a ≤ b)%nat → (0 < b)%nat →
  0 <= inject_Z (Z.of_nat a) / inject_Z (Z.of_nat b) <= 1.
Proof.
  intros Hab Hb.
  assert (0 < inject_Z (Z.of_nat b)) as Hpos.
  { change 0 with (inject_Z 0). rewrite <- Zlt_Qlt. lia. }
  split.
  - apply Qle_shift_div_l; [done|]. rewrite Qmult_0_l.
    change 0 with (inject_Z 0). rewrite <- Zle_Qle. lia.
  - apply Qle_shift_div_r; [done|]. rewrite Qmult_1_l.
    rewrite <- Zle_Qle. lia.
Qed.

Lemma fl_unit x : 0 <= x <= 1 → 0 <= fl x <= 1.
Proof.
  intros [H0 H1]. split.
  - rewrite <- fl_0. apply fl_mono; lra.
  - rewrite <- fl_1. by apply fl_mono.
Qed.

(** A ratio of counts, as lines 56 and 57 compute it, is the rounding of
    a value of [0, 1]. *)
Lemma ratio_rounded (a b : nat) q :
  (if (0 <? a + b)%nat then int_div fl a (a + b) else Ok 0) = Ok q →
  ∃ x, 0 <= x <= 1 ∧ q == fl x.
Proof.
  destruct (ratio_ok fl a b) as (q' & -> & Hz & Hnz). intros [= <-].
  destruct (decide (a + b = 0)%nat) as [Hab|Hab].
  - exists 0. split; [lra|]. by rewrite (Hz Hab), fl_0.
  - eexists. split; [|by rewrite (Hnz Hab)]. apply ratio_range; lia.
Qed.

Lemma f1_unit p r f :
  (∃ x, 0 <= x <= 1 ∧ p == fl x) → (∃ y, 0 <= y <= 1 ∧ r == fl y) →
  (if gt0 (fl (p + r))
   then float_div fl (fl (fl (2 * p) * r)) (fl (p + r)) else Ok 0) = Ok f →
  0 <= f <= 1.
Proof.
  intros (x & Hx & Hp) (y & Hy & Hr).
  destruct (f1_ok fl (fl (fl (2 * p) * r)) p r) as (f' & -> & Hz & Hnz).
  intros [= <-].
  destruct (Qlt_le_dec 0 (fl (p + r))) as [Hgt|Hle];
    [rewrite (Hnz Hgt)|rewrite (Hz Hle); lra].
  assert (fl (2 * p) == 2 * p) as H2p.
  { rewrite Hp. by apply fl_double. }
  pose proof (fl_unit x Hx) as Hfx. pose proof (fl_unit y Hy) as Hfy.
  rewrite <- Hp in Hfx. rewrite <- Hr in Hfy.
  assert (0 <= 2 * p * r) as Hlo by nra.
  assert (2 * p * r <= p + r) as Hhi by nra.
  apply fl_unit. rewrite H2p. split.
  - apply Qle_shift_div_l; [done|]. rewrite Qmult_0_l.
    rewrite <- fl_0. apply fl_mono; lra.
  - apply Qle_shift_div_r; [done|]. rewrite Qmult_1_l. by apply fl_mono.
Qed.

(** C1: for all finite sets [pred] and [truth] of (type, value) pairs,
    [precision_recall_f1] returns the precision [tp/(tp+fp)], the recall
    [tp/(tp+fn)] and the F1 score [2*precision*recall/(precision+recall)],
    each computed in float arithmetic, with [tp = |pred ∩ truth|],
    [fp = |pred − truth|] and [fn = |truth − pred|]; a component whose
    denominator is zero is [0.0], and no division raises. *)
Theorem precision_recall_f1_formula pred truth :
  let tp := size (pred ∩ truth) in
  let fp := size (pred ∖ truth) in
  let fn := size (truth ∖ pred) in
  let QN n := inject_Z (Z.of_nat n) in
  ∃ p r f,
    precision_recall_f1 fl pred truth = Ok (p, r, f) ∧
    ((tp + fp = 0)%nat → p = 0) ∧
    ((tp + fp ≠ 0)%nat → p = fl (QN tp / QN (tp + fp)%nat)) ∧
    ((tp + fn = 0)%nat → r = 0) ∧
    ((tp + fn ≠ 0)%nat → r = fl (QN tp / QN (tp + fn)%nat)) ∧
    (fl (p + r) == 0 → f = 0) ∧
    (¬ fl (p + r) == 0 →
       f = fl (fl (fl (2 * p) * r) / fl (p + r))).
Proof.
  intros tp fp fn QN.
  destruct (precision_recall_f1_steps fl pred truth)
    as (p & r & f & Hp & Hr & Hf & Hprf).
  fold tp fp fn in Hp, Hr.
  exists p, r, f. split; [done|].
  assert (0 <= fl (p + r)) as Hsum.
  { destruct (ratio_rounded _ _ _ Hp) as (x & Hx & Hpx).
    destruct (ratio_rounded _ _ _ Hr) as (y & Hy & Hry).
    pose proof (fl_unit x Hx). pose proof (fl_unit y Hy).
    rewrite <- fl_0. apply fl_mono; lra. }
  destruct (ratio_ok fl tp fp) as (p' & Hp' & Hpz & Hpnz).
  destruct (ratio_ok fl tp fn) as (r' & Hr' & Hrz & Hrnz).
  rewrite Hp in Hp'. rewrite Hr in Hr'.
  injection Hp' as <-. injection Hr' as <-.
  destruct (f1_ok fl (fl (fl (2 * p) * r)) p r) as (f' & Hf' & Hfz & Hfnz).
  rewrite Hf in Hf'. injection Hf' as <-.
  split; [done|]. split; [done|]. split; [done|]. split; [done|]. split.
  - intros Hz. apply Hfz. lra.
  - intros Hnz. apply Hfnz.
    destruct (Qlt_le_dec 0 (fl (p + r))); [done|].
    exfalso. apply Hnz. lra.
Qed.

(** C8: swapping the predicted and the truth set swaps precision and
    recall and leaves F1 unchanged. *)
Theorem precision_recall_f1_swap (S T : gset (string * string)) :
  ∃ p r f f',
    precision_recall_f1 fl S T = Ok (p, r, f) ∧
    precision_recall_f1 fl T S = Ok (r, p, f') ∧
    f' == f.
Proof.
  destruct (precision_recall_f1_steps fl S T)
    as (p & r & f & Hp & Hr & Hf & HST).
  destruct (precision_recall_f1_steps fl T S)
    as (p' & r' & f' & Hp' & Hr' & Hf' & HTS).
  rewrite (counts_swap S T) in Hp', Hr'.
  rewrite Hr in Hp'. rewrite Hp in Hr'.
  injection Hp' as <-. injection Hr' as <-.
  exists p, r, f, f'. split; [done|]. split; [done|].
  destruct (ratio_rounded _ _ _ Hp) as (x & Hx & Hpx).
  destruct (ratio_rounded _ _ _ Hr) as (y & Hy & Hry).
  assert (fl (2 * p) == 2 * p) as H2p by (rewrite Hpx; by apply fl_double).
  assert (fl (2 * r) == 2 * r) as H2r by (rewrite Hry; by apply fl_double).
  assert (fl (r + p) == fl (p + r)) as Hsum by (apply fl_proper; ring).
  destruct (f1_ok fl (fl (fl (2 * p) * r)) p r) as (g & Hg & Hgz & Hgnz).
  destruct (f1_ok fl (fl (fl (2 * r) * p)) r p) as (g' & Hg' & Hgz' & Hgnz').
  rewrite Hf in Hg. rewrite Hf' in Hg'.
  injection Hg as <-. injection Hg' as <-.
  destruct (Qlt_le_dec 0 (fl (p + r))) as [Hgt|Hle].
  - rewrite (Hgnz Hgt), Hgnz' by lra.
    apply fl_proper. rewrite Hsum. apply Qmult_comp; [|reflexivity].
    apply fl_proper. rewrite H2p, H2r. ring.
  - rewrite (Hgz Hle), Hgz' by lra. reflexivity.
Qed.

(** C10: with both sets empty the scores are (0.0, 0.0, 0.0). *)
Theorem precision_recall_f1_empty :
  precision_recall_f1 fl ∅ ∅ = Ok (0, 0, 0).
Proof.
  unfold precision_recall_f1.
  replace (size ((∅ : gset (string * string)) ∩ ∅)) with 0%nat
    by (symmetry; apply size_empty_iff; set_solver).
  replace (size ((∅ : gset (string * string)) ∖ ∅)) with 0%nat
    by (symmetry; apply size_empty_iff; set_solver).
  simpl. change (0 + 0) with 0.
  assert (gt0 (fl 0) = false) as -> by (apply gt0_false; lra).
  reflexivity.
Qed.

Lemma mapping_accuracy_unit {V} (veq : V → V → bool)
    (pm tm : gmap (string * string) V) :
  ∃ acc, mapping_accuracy veq fl pm tm = Ok acc ∧ 0 <= acc <= 1.
Proof.
  unfold mapping_accuracy. case_decide as HK.
  - exists 0. split; [done|lra].
  - destruct (size (dom tm ∩ dom pm)) as [|n] eqn:Hn.
    { apply size_empty_iff, leibniz_equiv in Hn. done. }
    eexists. split; [reflexivity|]. apply fl_unit, ratio_range; [|lia].
    rewrite <- Hn. etrans; [apply length_filter|]. done.
Qed.

(** C9: precision, recall and F1 of [precision_recall_f1] and the result
    of [mapping_accuracy] all lie in the closed interval [0, 1]. *)
Theorem scores_in_unit_interval {V} (veq : V → V → bool)
    pred truth (pm tm : gmap (string * string) V) :
  ∃ p r f acc,
    precision_recall_f1 fl pred truth = Ok (p, r, f) ∧
    mapping_accuracy veq fl pm tm = Ok acc ∧
    0 <= p <= 1 ∧ 0 <= r <= 1 ∧ 0 <= f <= 1 ∧ 0 <= acc <= 1.
Proof.
  destruct (precision_recall_f1_steps fl pred truth)
    as (p & r & f & Hp & Hr & Hf & Hprf).
  destruct (mapping_accuracy_unit veq pm tm) as (acc & Hacc & Hrange).
  exists p, r, f, acc. split; [done|]. split; [done|].
  pose proof (ratio_rounded _ _ _ Hp) as Hpx.
  pose proof (ratio_rounded _ _ _ Hr) as Hry.
  split; [|split; [|split]].
  - destruct Hpx as (x & Hx & ->). by apply fl_unit.
  - destruct Hry as (y & Hy & ->). by apply fl_unit.
  - exact (f1_unit p r f Hpx Hry Hf).
  - done.
Qed.

End Rounding.

Section SharedKeys.

Import Score.

(** C2: whatever the rounding [fl], [mapping_accuracy] is 0.0 when the two
    maps share no key (so also when either is empty); otherwise it is the
    number of shared keys whose phase labels are the same string, divided
    by the number of shared keys; keys of one map only do not affect the
    result. *)
Theorem mapping_accuracy_shared_keys (fl : Q → Q)
    (pm tm : gmap (string * string) string) :
  let K := dom tm ∩ dom pm in
  let QN n := inject_Z (Z.of_nat n) in
  (dom pm ## dom tm → mapping_accuracy String.eqb fl pm tm = Ok 0) ∧
  mapping_accuracy String.eqb fl ∅ tm = Ok 0 ∧
  mapping_accuracy String.eqb fl pm ∅ = Ok 0 ∧
  (¬ dom pm ## dom tm →
     mapping_accuracy String.eqb fl pm tm =
       Ok (fl (QN (size (filter (λ k, pm !! k = tm !! k) K))
               / QN (size K)))) ∧
  (∀ pm' tm' : gmap (string * string) string,
     dom tm' ∩ dom pm' = K →
     (∀ k, k ∈ K → pm' !! k = pm !! k ∧ tm' !! k = tm !! k) →
     mapping_accuracy String.eqb fl pm' tm' =
       mapping_accuracy String.eqb fl pm tm).
Proof.
  intros K QN.
  assert (∀ a b : gmap (string * string) string,
            dom a ## dom b →
            mapping_accuracy String.eqb fl a b = Ok 0) as Hdisj.
  { intros a b Hab. unfold mapping_accuracy.
    rewrite decide_True; [done|]. by apply disjoint_intersection_L. }
  split; [apply Hdisj|].
  split; [apply Hdisj; rewrite dom_empty_L; set_solver|].
  split; [apply Hdisj; rewrite dom_empty_L; set_solver|].
  split.
  - intros Hshare. unfold mapping_accuracy. fold K.
    rewrite decide_False by (intros HK; apply Hshare; set_solver).
    rewrite size_filter_elements. unfold int_div, QN.
    destruct (size K) as [|n] eqn:Hn.
    { apply size_empty_iff, leibniz_equiv in Hn.
      exfalso. apply Hshare. set_solver. }
    erewrite filter_on_elements; [reflexivity|].
    intros k Hk. apply agree_labels. by apply elem_of_elements in Hk.
  - intros pm' tm' Hdom Hsame. unfold mapping_accuracy.
    rewrite Hdom. fold K. case_decide; [done|].
    erewrite filter_on_elements; [reflexivity|].
    intros k Hk. apply elem_of_elements in Hk.
    destruct (Hsame k Hk) as [-> ->]. done.
Qed.

End SharedKeys.

Local Close Scope Q_scope.

(** ** Artifact sets and phase maps *)

Section Documents.

Import Py Spec Evaluate.

Lemma field_string d k o :
  field_is d k o → field (JDict d) k = Ok (default "" o).
Proof.
  unfold field, field_is. simpl. destruct o as [s|].
  - intros ->. simpl. unfold or_else. simpl.
    destruct (String.eqb_spec s ""); by subst.
  - by intros [-> | ->].
Qed.

Lemma nonempty_true s : nonempty s = true ↔ s ≠ "".
Proof.
  unfold nonempty. by destruct (String.eqb_spec s "").
Qed.

Lemma keep_true (k : string * string) :
  nonempty k.1 && nonempty k.2 = true ↔ k.1 ≠ "" ∧ k.2 ≠ "".
Proof. by rewrite andb_true_iff, !nonempty_true. Qed.

Lemma artifact_record_ok a : artifact_record a → is_ok (normalize a).
Proof.
  intros (d & t & v & -> & Ht & Hv). unfold normalize.
  by rewrite (field_string _ _ _ Ht), (field_string _ _ _ Hv).
Qed.

(** C4: normalising an artifact record gives, as type, its type string
    stripped of leading and trailing whitespace and lower-cased and, as
    value, its value string stripped of leading and trailing whitespace,
    its characters otherwise unchanged; an absent field gives the empty
    string, and the normalisation raises nothing. *)
Theorem normalize_record (d : list (string * json)) (t v : option string) :
  field_is d "type" t → field_is d "value" v →
  ∃ a_type a_val,
    normalize (JDict d) = Ok (a_type, a_val) ∧
    (∃ m, stripped_of (default "" t) m ∧ lowered_of m a_type) ∧
    (∃ l, lowered_of (default "" t) l ∧ stripped_of l a_type) ∧
    stripped_of (default "" v) a_val ∧
    (t = None → a_type = "") ∧ (v = None → a_val = "").
Proof.
  intros Ht Hv. unfold normalize.
  rewrite (field_string _ _ _ Ht), (field_string _ _ _ Hv). simpl.
  do 2 eexists. split; [reflexivity|].
  split; [|split; [|split; [|split]]].
  - exists (strip (default "" t)).
    split; [apply stripped_of_strip|apply lowered_of_lower].
  - exists (lower (default "" t)).
    split; [apply lowered_of_lower|].
    rewrite lower_strip. apply stripped_of_strip.
  - apply stripped_of_strip.
  - by intros ->.
  - by intros ->.
Qed.

Lemma add_artifacts_spec l acc :
  Forall (λ a, is_ok (normalize a)) l →
  ∃ S, add_artifacts l acc = Ok S ∧
    ∀ k, k ∈ S ↔
      k ∈ acc ∨ ∃ a, a ∈ l ∧ normalize a = Ok k ∧ k.1 ≠ "" ∧ k.2 ≠ "".
Proof.
  intros Hl. revert acc. induction Hl as [|a l Ha _ IH]; intros acc.
  - exists acc. split; [done|]. intros k. split; [by left|].
    intros [?|(a & Ha & _)]; [done|]. by apply elem_of_nil in Ha.
  - simpl. destruct (normalize a) as [kv|] eqn:Hkv; [|done]. simpl.
    destruct (IH (if nonempty kv.1 && nonempty kv.2
                  then {[kv]} ∪ acc else acc)) as (S & -> & HS).
    exists S. split; [done|]. intros k. rewrite HS. split.
    + intros [Hk|(a' & Ha' & Hn & Hne)].
      * destruct (nonempty kv.1 && nonempty kv.2) eqn:Hkeep; [|by left].
        apply elem_of_union in Hk as [->%elem_of_singleton|?]; [|by left].
        right. exists a. apply keep_true in Hkeep.
        split; [by left|]. tauto.
      * right. exists a'. split; [by right|done].
    + intros [Hk|(a' & Ha' & Hn & Hne)].
      * left. destruct (nonempty kv.1 && nonempty kv.2); set_solver.
      * apply elem_of_cons in Ha' as [->|Ha'].
        -- left. rewrite Hkv in Hn. injection Hn as ->.
           rewrite (proj2 (keep_true k) Hne). set_solver.
        -- right. by exists a'.
Qed.

Lemma to_artifact_set_entries (obj : json) (entries : list json) :
  has_entries "artifacts" obj entries →
  to_artifact_set obj = add_artifacts entries ∅.
Proof.
  intros [d l Hd|d Hd|x Hx]; unfold to_artifact_set; simpl.
  - by rewrite Hd.
  - by rewrite Hd.
  - destruct x; try done. by destruct (Hx l).
Qed.

(** C5: the set built by [to_artifact_set] contains exactly the
    normalised (type, value) pairs of the document's artifacts whose
    normalised type and value are both non-empty; an artifact whose
    normalised type or value is empty is left out. *)
Theorem to_artifact_set_exact (obj : json) (entries : list json) :
  has_entries "artifacts" obj entries →
  Forall (λ a, is_ok (normalize a)) entries →
  ∃ S, to_artifact_set obj = Ok S ∧
    ∀ t v, (t, v) ∈ S ↔
      ∃ a, a ∈ entries ∧ normalize a = Ok (t, v) ∧ t ≠ "" ∧ v ≠ "".
Proof.
  intros Hobj Hok. rewrite (to_artifact_set_entries _ _ Hobj).
  destruct (add_artifacts_spec entries ∅ Hok) as (S & HS & Hin).
  exists S. split; [done|]. intros t v. rewrite Hin. set_solver.
Qed.

Lemma add_phase_spec (ph : json) (l : list json)
    (M : gmap (string * string) json) :
  Forall (λ a, is_ok (normalize a)) l →
  ∃ M', add_phase ph l M = Ok M' ∧
    ∀ k, (holds (ph, l) k ∧ M' !! k = Some ph) ∨
         (¬ holds (ph, l) k ∧ M' !! k = M !! k).
Proof.
  intros Hl. revert M. induction Hl as [|a l Ha _ IH]; intros M.
  - exists M. split; [done|]. intros k. right. split; [|done].
    intros (_ & _ & _ & a & Ha & _). by apply elem_of_nil in Ha.
  - simpl. destruct (normalize a) as [kv|] eqn:Hkv; [|done]. simpl.
    set (keep := nonempty kv.1 && nonempty kv.2 && truthy ph).
    destruct (IH (if keep then <[kv:=ph]> M else M)) as (M' & -> & HM').
    exists M'. split; [done|]. intros k.
    destruct (HM' k) as [[Hh Hk]|[Hn Hk]].
    { left. split; [|done].
      destruct Hh as (Ht & H1 & H2 & a' & Ha' & Hna').
      repeat split; try done. exists a'. split; [by right|done]. }
    assert (keep = true ↔ truthy ph = true ∧ kv.1 ≠ "" ∧ kv.2 ≠ "")
      as Hkeep.
    { unfold keep. rewrite andb_true_iff, keep_true. tauto. }
    destruct (decide (keep = true ∧ kv = k)) as [[Hc ->]|Hnot].
    + left. rewrite Hk, Hc, lookup_insert_eq. split; [|done].
      apply Hkeep in Hc as (Ht & H1 & H2). repeat split; try done.
      exists a. split; [by left|done].
    + right. split.
      * intros (Ht & H1 & H2 & a' & Ha' & Hna').
        apply elem_of_cons in Ha' as [->|Ha'].
        -- rewrite Hkv in Hna'. injection Hna' as ->.
           apply Hnot. split; [|done]. by apply Hkeep.
        -- apply Hn. repeat split; try done. by exists a'.
      * rewrite Hk. destruct keep eqn:Hc; [|done].
        apply lookup_insert_ne. intros ->. by apply Hnot.
Qed.

Lemma group_iter (d : list (string * json)) (l : list json) :
  group_entries d l →
  iter (or_else (default (JList []) (assoc "artifacts" d)) (JList []))
    = Ok l.
Proof.
  intros [l' Hd|Hd|x Hd Hx]; rewrite Hd; simpl.
  - by destruct l'.
  - done.
  - unfold or_else. by rewrite Hx.
Qed.

Lemma add_phases_spec (items : list json) (groups : list (json * list json))
    (M0 : gmap (string * string) json) :
  Forall2 is_group items groups →
  Forall (λ g, Forall (λ a, is_ok (normalize a)) g.2) groups →
  ∃ M, add_phases items M0 = Ok M ∧
    ∀ k ph, M !! k = Some ph ↔
      (∃ i g, groups !! i = Some g ∧ g.1 = ph ∧ holds g k ∧
         ∀ j g', i < j → groups !! j = Some g' → ¬ holds g' k)
      ∨ ((∀ g, g ∈ groups → ¬ holds g k) ∧ M0 !! k = Some ph).
Proof.
  intros Hgroups. revert M0.
  induction Hgroups as [|p g items groups Hg _ IH]; intros M0 Hok.
  - exists M0. split; [done|]. intros k ph. split.
    + intros HM. right. split; [|done]. intros g Hg. by apply elem_of_nil in Hg.
    + intros [(i & g & Hi & _)|[_ HM]]; [|done]. by rewrite lookup_nil in Hi.
  - apply Forall_cons in Hok as [Hokg Hok].
    destruct Hg as (d & -> & Hph & Hent). destruct g as [name l].
    simpl in Hph, Hent, Hokg. simpl.
    rewrite <- Hph. simpl. rewrite (group_iter _ _ Hent). simpl.
    destruct (add_phase_spec name l M0 Hokg) as (M1 & -> & HM1). simpl.
    destruct (IH M1 Hok) as (M & -> & HM).
    exists M. split; [done|]. intros k ph. rewrite HM. split.
    + intros [(i & g & Hi & Hgph & Hh & Hlast)|[Hnone HM1k]].
      * left. exists (S i), g. split_and!; try done.
        intros [|j] g' Hj Hj'; [lia|]. apply (Hlast j g'); [lia|done].
      * destruct (HM1 k) as [[Hh Hk]|[Hn Hk]].
        -- left. exists 0, (name, l). rewrite Hk in HM1k.
           injection HM1k as <-. split_and!; try done.
           intros [|j] g' Hj Hj'; [lia|]. apply Hnone.
           by eapply list_elem_of_lookup_2.
        -- right. split; [|by rewrite <- Hk].
           intros g [->|Hg]%elem_of_cons; [done|by apply Hnone].
    + intros [(i & g & Hi & Hgph & Hh & Hlast)|[Hnone HM0k]].
      * destruct i as [|i].
        -- injection Hi as <-. simpl in Hgph. subst ph. right. split.
           ++ intros g' Hg'. apply list_elem_of_lookup in Hg' as (j & Hj).
              apply (Hlast (S j) g'); [lia|done].
           ++ destruct (HM1 k) as [[_ Hk]|[Hn _]]; done.
        -- left. exists i, g. split_and!; try done.
           intros j g' Hj Hj'. apply (Hlast (S j) g'); [lia|done].
      * right. split.
        -- intros g Hg. apply Hnone. by right.
        -- destruct (HM1 k) as [[Hh _]|[_ Hk]]; [|by rewrite Hk].
           exfalso. apply (Hnone (name, l)); [by left|done].
Qed.

Lemma to_phase_map_entries (obj : json) (items : list json) :
  has_entries "kill_chain_mapping" obj items →
  to_phase_map obj = add_phases items ∅.
Proof.
  intros [d l Hd|d Hd|x Hx]; unfold to_phase_map; simpl.
  - by rewrite Hd.
  - by rewrite Hd.
  - destruct x; try done. by destruct (Hx l).
Qed.

(** C6: the phase map built by [to_phase_map] gives each normalised
    identity pair the phase name of the last group, in list order, that
    contributes it (last write wins on duplicate pairs); an entry under an
    empty phase name, or whose normalised type or value is empty,
    contributes nothing. *)
Theorem to_phase_map_last_wins (obj : json) (items : list json)
    (groups : list (json * list json)) :
  has_entries "kill_chain_mapping" obj items →
  Forall2 is_group items groups →
  Forall (λ g, Forall (λ a, is_ok (normalize a)) g.2) groups →
  ∃ M, to_phase_map obj = Ok M ∧
    ∀ k ph, M !! k = Some ph ↔
      ∃ i g, groups !! i = Some g ∧ g.1 = ph ∧ holds g k ∧
        ∀ j g', i < j → groups !! j = Some g' → ¬ holds g' k.
Proof.
  intros Hobj Hgroups Hok. rewrite (to_phase_map_entries _ _ Hobj).
  destruct (add_phases_spec items groups ∅ Hgroups Hok) as (M & HM & Hin).
  exists M. split; [done|]. intros k ph. rewrite Hin. split; [|by left].
  intros [?|[_ Hempty]]; [done|]. by rewrite lookup_empty in Hempty.
Qed.

End Documents.

(** ** Response recovery *)

Section RecoveryFacts.

Import Py Spec Recovery.

Lemma index_ge (sub s : string) (n m : nat) :
  String.index n sub s = Some m → n ≤ m.
Proof.
  revert n m. induction s as [|c s IH]; intros n m; simpl.
  - destruct n; [|done]. destruct sub; [|done]. intros [= <-]. lia.
  - destruct n as [|n].
    + lia.
    + destruct (String.index n sub s) as [i|] eqn:Hi; [|done].
      intros [= <-]. apply IH in Hi. lia.
Qed.

Lemma index_first (sub s : string) (start i : nat) :
  sub ≠ EmptyString →
  String.index start sub s = Some i ↔ first_from sub s start i.
Proof.
  intros Hsub. split.
  - intros Hi. split; [by eapply index_ge|]. split.
    + by eapply String.index_correct1.
    + intros p Hp Hlt. by eapply String.index_correct2.
  - intros (Hle & Hocc & Hmin).
    destruct (String.index start sub s) as [i'|] eqn:Hi.
    + f_equal. destruct (lt_eq_lt_dec i' i) as [[Hlt| -> ]|Hgt]; [|done|].
      * exfalso. apply (Hmin i'); [by eapply index_ge|done|].
        by eapply String.index_correct1.
      * exfalso. by eapply (String.index_correct2 _ _ _ _ Hi i).
    + exfalso. by eapply (String.index_correct3 _ i _ _ Hi).
Qed.

Lemma first_from_unique (sub s : string) (start i i' : nat) :
  first_from sub s start i → first_from sub s start i' → i = i'.
Proof.
  intros (Hle & Hocc & Hmin) (Hle' & Hocc' & Hmin').
  destruct (lt_eq_lt_dec i i') as [[Hlt| -> ]|Hgt]; [|done|].
  - by destruct (Hmin' i).
  - by destruct (Hmin i').
Qed.

(** The marker is seven characters long. *)
Lemma fenced_inv (text mid : string) :
  fenced text mid →
  ∃ i j, first_from marker text 0 i ∧ first_from fence text (i + 7) j ∧
    mid = String.substring (i + 7) (j - (i + 7)) text.
Proof. intros H. exact H. Qed.

Lemma fenced_intro (text : string) (i j : nat) :
  first_from marker text 0 i → first_from fence text (i + 7) j →
  fenced text (String.substring (i + 7) (j - (i + 7)) text).
Proof. intros Hi Hj. by exists i, j. Qed.

Lemma fenced_unique (text mid mid' : string) :
  fenced text mid → fenced text mid' → mid = mid'.
Proof.
  intros (i & j & Hi & Hj & ->)%fenced_inv (i' & j' & Hi' & Hj' & ->)%fenced_inv.
  assert (i = i') as <- by by eapply first_from_unique.
  assert (j = j') as <- by by eapply first_from_unique.
  done.
Qed.

Lemma substring_none (n : nat) (s : string) :
  String.substring n 0 s = EmptyString.
Proof. revert n. induction s; intros [|n]; simpl; auto. Qed.

Lemma artifact_count_sized (x : json) :
  is_ok (artifact_count x) ↔ sized_object x.
Proof.
  unfold sized_object, artifact_count.
  destruct x as [| | | |l|d]; simpl;
    try (split; [done|intros (d0 & Heq & _); discriminate]).
  split.
  - intros Hok. exists d. split; [done|].
    destruct (assoc "artifacts" d) as [[]|]; done.
  - intros (d' & [= <-] & Hd).
    destruct (assoc "artifacts" d) as [[]|]; done.
Qed.

Lemma artifact_count_raise (x : json) (e : exn) :
  artifact_count x = Raise e → e = AttributeError ∨ e = TypeError.
Proof.
  unfold artifact_count.
  destruct x as [| | | |l|d]; simpl; try (intros [= <-]; by left).
  destruct (assoc "artifacts" d) as [[]|]; simpl; intros [= <-]; by right.
Qed.

Lemma deliver_sized log mk x : sized_object x → (deliver log mk x).2 = Ok x.
Proof.
  intros Hx%artifact_count_sized. unfold deliver.
  by destruct (artifact_count x).
Qed.

Lemma deliver_not_failed log mk x e : (deliver log mk x).2 ≠ Raise (Failed e).
Proof.
  unfold deliver. destruct (artifact_count x) as [n|e'] eqn:Hc; [done|].
  simpl. intros [= ->]. by destruct (artifact_count_raise _ _ Hc).
Qed.

Variable json_loads : string → decode_error + json.

Lemma parse_response_direct (content : string) (x : json) :
  json_loads (strip content) = inr x →
  parse_response json_loads content = deliver [] PrintedCount x.
Proof.
  intros Hx. unfold parse_response. by rewrite Hx.
Qed.

(** After a failed direct parse the block either parses the fenced text
    or gives up; it gives up when there is no fenced text or only an
    empty one. *)
Lemma parse_response_fallback (content : string) (e : decode_error) :
  let text := strip content in
  let log := [PrintedParseError e; PrintedRaw text] in
  json_loads text = inl e →
  (∃ mid, fenced text mid ∧
     parse_response json_loads content =
       match json_loads (strip mid) with
       | inr x => deliver log PrintedCountMarkdown x
       | inl _ => (log, Raise (Failed e))
       end)
  ∨ ((∀ mid, fenced text mid → mid = EmptyString) ∧
     parse_response json_loads content = (log, Raise (Failed e))).
Proof.
  intros text log He. unfold parse_response. fold text. rewrite He.
  unfold contains, find.
  destruct (String.index 0 marker text) as [i|] eqn:Hi.
  2:{ right. split; [|done]. intros mid (i & j & Hi' & _)%fenced_inv.
      apply index_first in Hi'; [congruence|done]. }
  replace (Z.to_nat (Z.of_nat i + 7)) with (i + 7) by lia.
  apply index_first in Hi; [|done].
  destruct (String.index (i + 7) fence text) as [j|] eqn:Hj.
  2:{ right. split.
      2:{ destruct (Z.gtb_spec (-1) (Z.of_nat i + 7)); [lia|done]. }
      intros mid (i' & j & Hi' & Hj' & _)%fenced_inv.
      assert (i' = i) as -> by by eapply first_from_unique.
      apply index_first in Hj'; [congruence|done]. }
  pose proof (index_ge _ _ _ _ Hj) as Hge.
  apply index_first in Hj; [|done].
  destruct (Z.gtb_spec (Z.of_nat j) (Z.of_nat i + 7)) as [Hgt|Hle].
  - left. exists (String.substring (i + 7) (j - (i + 7)) text).
    split; [by apply fenced_intro|].
    unfold slice.
    replace (Z.to_nat (Z.of_nat i + 7)) with (i + 7) by lia.
    replace (Z.to_nat (Z.of_nat j - (Z.of_nat i + 7)))
      with (j - (i + 7)) by lia.
    done.
  - right. split; [|done].
    intros mid (i' & j' & Hi' & Hj' & ->)%fenced_inv.
    assert (i' = i) as -> by by eapply first_from_unique.
    assert (j' = j) as -> by by eapply first_from_unique.
    replace (j - (i + 7)) with 0 by lia. apply substring_none.
Qed.

End RecoveryFacts.

Section RecoveryOrder.

Import Py Spec Recovery.

(** [json.loads]: its error records the text it was given, and the empty
    text is not JSON. *)
Variable json_loads : string → decode_error + json.
Hypothesis loads_doc : ∀ s e, json_loads s = inl e → err_doc e = s.
Hypothesis loads_empty : ∀ x, json_loads EmptyString ≠ inr x.

Lemma failed_iff (content : string) (e : decode_error) :
  let text := strip content in
  (parse_response json_loads content).2 = Raise (Failed e) ↔
    json_loads text = inl e ∧
    ∀ mid x, fenced text mid → json_loads (strip mid) ≠ inr x.
Proof.
  intros text. split.
  - intros Hout. destruct (json_loads text) as [e0|x] eqn:He.
    2:{ rewrite (parse_response_direct _ _ _ He) in Hout.
        by apply deliver_not_failed in Hout. }
    destruct (parse_response_fallback json_loads content e0 He)
      as [(mid' & Hmid' & Heq)|[Hnone Heq]]; rewrite Heq in Hout.
    + destruct (json_loads (strip mid')) as [e'|x] eqn:He'.
      * injection Hout as ->. split; [done|]. intros mid x Hmid.
        rewrite (fenced_unique _ _ _ Hmid Hmid'). congruence.
      * by apply deliver_not_failed in Hout.
    + injection Hout as ->. split; [done|]. intros mid x Hmid.
      rewrite (Hnone mid Hmid). apply loads_empty.
  - intros [He Hfail].
    destruct (parse_response_fallback json_loads content e He)
      as [(mid' & Hmid' & ->)|[_ ->]]; [|done].
    destruct (json_loads (strip mid')) as [e'|x] eqn:He'; [done|].
    by destruct (Hfail mid' x).
Qed.

(** C3, as the code has it: the recovery parse (1) parses the whole
    trimmed text as JSON and returns the value when it is an object whose
    [artifacts] entry, if any, has a length; (2) otherwise parses the
    trimmed text strictly between the first "```json" marker and the next
    closing fence after it, and returns that value under the same
    condition; (3) raises the failure that carries the original parse
    error, the trimmed raw text having been printed and being recorded in
    that error, exactly when the whole text does not parse and no fenced
    text parses. *)
Theorem parse_response_recovery (content : string) :
  let text := strip content in
  let out := parse_response json_loads content in
  (∀ x, json_loads text = inr x → sized_object x → out.2 = Ok x) ∧
  (∀ e mid x,
     json_loads text = inl e → fenced text mid →
     json_loads (strip mid) = inr x → sized_object x → out.2 = Ok x) ∧
  (∀ e, out.2 = Raise (Failed e) ↔
     json_loads text = inl e ∧
     ∀ mid x, fenced text mid → json_loads (strip mid) ≠ inr x) ∧
  (∀ e, out.2 = Raise (Failed e) →
     err_doc e = text ∧ PrintedRaw text ∈ out.1).
Proof.
  intros text out. split_and!.
  - intros x Hx Hsized. unfold out.
    rewrite (parse_response_direct _ _ _ Hx). by apply deliver_sized.
  - intros e mid x He Hmid Hx Hsized. unfold out.
    destruct (parse_response_fallback json_loads content e He)
      as [(mid' & Hmid' & ->)|[Hnone _]].
    + rewrite <- (fenced_unique _ _ _ Hmid Hmid'), Hx.
      by apply deliver_sized.
    + rewrite (Hnone mid Hmid) in Hx. by apply loads_empty in Hx.
  - intros e. apply failed_iff.
  - intros e Hout. pose proof Hout as [He _]%failed_iff.
    split; [by apply loads_doc|]. unfold out in *.
    destruct (parse_response_fallback json_loads content e He)
      as [(mid' & Hmid' & Heq)|[_ Heq]]; rewrite Heq in *.
    + destruct (json_loads (strip mid')) as [e'|x].
      * simpl. set_solver.
      * by apply deliver_not_failed in Hout.
    + simpl. set_solver.
Qed.

End RecoveryOrder.

(** ** binary64 rounding is a rounding *)

Section Binary64.

Import Float.

Local Open Scope Q_scope.

Lemma pow2_pos (k : Z) : 0 < 2 ^ k.
Proof. apply Qpower_0_lt. reflexivity. Qed.

Lemma pow2_succ (k : Z) : 2 ^ (k + 1) == 2 * 2 ^ k.
Proof. rewrite Qpower_plus by discriminate. change (2 ^ 1) with 2. ring. Qed.

Lemma pow2_shift (n k : Z) :
  (0 <= n)%Z → 2 ^ k == inject_Z (2 ^ n) * 2 ^ (k - n).
Proof.
  intros Hn. rewrite Zpower_Qpower by exact Hn. change (inject_Z 2) with 2.
  rewrite <- Qpower_plus by discriminate.
  replace (n + (k - n))%Z with k by lia. reflexivity.
Qed.

Lemma pow2_le (k k' : Z) : (k <= k')%Z → 2 ^ k <= 2 ^ k'.
Proof. intros H. apply Qpower_le_compat_l; [exact H|discriminate]. Qed.

Lemma pow2_lt_inv (k k' : Z) : 2 ^ k < 2 ^ k' → (k < k')%Z.
Proof. intros H. apply (Qpower_lt_compat_l_inv 2); [exact H|reflexivity]. Qed.

(** [ilog2] is the floor of the binary logarithm. *)
Lemma ilog2_spec (x : Q) :
  0 < x → 2 ^ ilog2 x <= x ∧ x < 2 ^ (ilog2 x + 1).
Proof.
  intros Hx. unfold ilog2.
  destruct x as [n d]. simpl Qnum. simpl Qden.
  assert (0 < n)%Z as Hn by (unfold Qlt in Hx; simpl in Hx; lia).
  set (a := Z.log2 n). set (b := Z.log2 (Zpos d)).
  assert (0 <= a)%Z as Ha by apply Z.log2_nonneg.
  assert (0 <= b)%Z as Hb by apply Z.log2_nonneg.
  destruct (Z.log2_spec n Hn) as [Hn1 Hn2]. fold a in Hn1, Hn2.
  destruct (Z.log2_spec (Zpos d) eq_refl) as [Hd1 Hd2]. fold b in Hd1, Hd2.
  rewrite Zle_Qle, Zpower_Qpower in Hn1, Hd1 by assumption.
  rewrite Zlt_Qlt, Zpower_Qpower in Hn2, Hd2 by lia.
  change (inject_Z 2) with 2 in *.
  replace (Z.succ a) with (a + 1)%Z in Hn2 by lia.
  replace (Z.succ b) with (b + 1)%Z in Hd2 by lia.
  rewrite pow2_succ in Hn2, Hd2.
  pose proof (pow2_pos a) as HA. pose proof (pow2_pos b) as HB.
  pose proof (pow2_pos (a - b)) as HC.
  assert (2 ^ (a - b) * 2 ^ b == 2 ^ a) as HCB.
  { rewrite <- Qpower_plus by discriminate.
    replace (a - b + b)%Z with a by lia. reflexivity. }
  assert ((n # d) * inject_Z (Zpos d) == inject_Z n) as HxD.
  { rewrite (Qmake_Qdiv n d). field. discriminate. }
  revert Hn1 Hn2 Hd1 Hd2 HA HB HC HCB HxD Hx.
  generalize (2 ^ a) (2 ^ b) (inject_Z n) (inject_Z (Zpos d)).
  intros A B N D Hn1 Hn2 Hd1 Hd2 HA HB HC HCB HxD Hx.
  destruct (Qle_bool (2 ^ (a - b)) (n # d)) eqn:Hcmp.
  - apply Qle_bool_iff in Hcmp. split; [exact Hcmp|].
    rewrite pow2_succ.
    revert Hcmp HC HCB HxD Hx. generalize (2 ^ (a - b)) (n # d).
    intros C x Hcmp HC HCB HxD Hx. nra.
  - assert (n # d < 2 ^ (a - b)) as Hlt.
    { apply Qnot_le_lt. intros Hle. apply Qle_bool_iff in Hle. congruence. }
    replace (a - b - 1 + 1)%Z with (a - b)%Z by lia.
    split; [|exact Hlt].
    assert (2 ^ (a - b) == 2 * 2 ^ (a - b - 1)) as HC2.
    { rewrite <- pow2_succ. replace (a - b - 1 + 1)%Z with (a - b)%Z by lia.
      reflexivity. }
    pose proof (pow2_pos (a - b - 1)) as HC1.
    revert Hlt HC HCB HxD Hx HC2 HC1.
    generalize (2 ^ (a - b)) (2 ^ (a - b - 1)) (n # d).
    intros C C1 x Hlt HC HCB HxD Hx HC2 HC1. nra.
Qed.

Lemma ilog2_unique (x : Q) (k : Z) :
  2 ^ k <= x → x < 2 ^ (k + 1) → ilog2 x = k.
Proof.
  intros Hlo Hhi.
  assert (0 < x) as Hx by (pose proof (pow2_pos k); lra).
  destruct (ilog2_spec x Hx) as [Hlo' Hhi'].
  assert (ilog2 x < k + 1)%Z by (apply pow2_lt_inv; lra).
  assert (k < ilog2 x + 1)%Z by (apply pow2_lt_inv; lra).
  lia.
Qed.

Lemma ilog2_mono (x y : Q) : 0 < x → x <= y → (ilog2 x <= ilog2 y)%Z.
Proof.
  intros Hx Hxy.
  destruct (ilog2_spec x Hx) as [Hlo _].
  destruct (ilog2_spec y) as [_ Hhi]; [lra|].
  assert (ilog2 x < ilog2 y + 1)%Z by (apply pow2_lt_inv; lra).
  lia.
Qed.

Lemma ilog2_proper (x y : Q) : 0 < x → x == y → ilog2 x = ilog2 y.
Proof.
  intros Hx Hxy. symmetry.
  destruct (ilog2_spec x Hx) as [Hlo Hhi].
  apply ilog2_unique; lra.
Qed.

Lemma rint_between (q : Q) : (Qfloor q <= rint q <= Qfloor q + 1)%Z.
Proof.
  unfold rint. destruct (Qcompare _ _); [destruct (Z.even _)| |]; lia.
Qed.

Lemma rint_Z (z : Z) : rint (inject_Z z) = z.
Proof.
  unfold rint. rewrite Qfloor_Z.
  destruct (Qcompare_spec (inject_Z z - inject_Z z) (1 # 2)) as [H|H|H];
    [exfalso; lra|reflexivity|exfalso; lra].
Qed.

Lemma rint_proper (q q' : Q) : q == q' → rint q = rint q'.
Proof.
  intros Hq. unfold rint.
  assert (Qfloor q = Qfloor q') as <- by (rewrite Hq; reflexivity).
  assert (Qcompare (q - inject_Z (Qfloor q)) (1 # 2)
          = Qcompare (q' - inject_Z (Qfloor q)) (1 # 2)) as <-
    by (apply Qcompare_comp; [rewrite Hq at 1|]; reflexivity).
  reflexivity.
Qed.

Lemma rint_mono (q q' : Q) : q <= q' → (rint q <= rint q')%Z.
Proof.
  intros Hq. pose proof (Qfloor_resp_le _ _ Hq) as Hf.
  destruct (Z.eq_dec (Qfloor q) (Qfloor q')) as [Heq|Hne].
  - unfold rint. rewrite <- Heq.
    destruct (Qcompare_spec (q - inject_Z (Qfloor q)) (1 # 2));
      destruct (Qcompare_spec (q' - inject_Z (Qfloor q)) (1 # 2));
      try destruct (Z.even (Qfloor q)); try lia; lra.
  - pose proof (rint_between q). pose proof (rint_between q'). lia.
Qed.

Lemma rint_ge (z : Z) (q : Q) : inject_Z z <= q → (z <= rint q)%Z.
Proof. intros H. rewrite <- (rint_Z z). apply rint_mono, H. Qed.

Lemma rint_le (z : Z) (q : Q) : q <= inject_Z z → (rint q <= z)%Z.
Proof. intros H. rewrite <- (rint_Z z). apply rint_mono, H. Qed.

(** The significand of a positive rational lies in [2^52, 2^53]. *)
Lemma significand_range (x : Q) :
  0 < x →
  (2 ^ 52 <= rint (x / 2 ^ (ilog2 x - 52)) <= 2 ^ 53)%Z.
Proof.
  intros Hx. destruct (ilog2_spec x Hx) as [Hlo Hhi].
  pose proof (pow2_pos (ilog2 x - 52)) as Hu.
  rewrite (pow2_shift 52 (ilog2 x)) in Hlo by lia.
  rewrite (pow2_shift 53 (ilog2 x + 1)) in Hhi by lia.
  replace (ilog2 x + 1 - 53)%Z with (ilog2 x - 52)%Z in Hhi by lia.
  split.
  - apply rint_ge. apply Qle_shift_div_l; assumption.
  - apply rint_le. apply Qle_shift_div_r; [assumption|]. lra.
Qed.

Lemma round_pos_bounds (x : Q) :
  0 < x → 2 ^ ilog2 x <= round_pos x <= 2 ^ (ilog2 x + 1).
Proof.
  intros Hx. destruct (significand_range x Hx) as [Hlo Hhi].
  pose proof (pow2_pos (ilog2 x - 52)) as Hu.
  unfold round_pos.
  rewrite (pow2_shift 52 (ilog2 x)) by lia.
  rewrite (pow2_shift 53 (ilog2 x + 1)) by lia.
  replace (ilog2 x + 1 - 53)%Z with (ilog2 x - 52)%Z by lia.
  rewrite Zle_Qle in Hlo, Hhi.
  split; apply Qmult_le_compat_r; lra.
Qed.

Lemma round_pos_proper (x y : Q) :
  0 < x → x == y → round_pos x == round_pos y.
Proof.
  intros Hx Hxy. unfold round_pos.
  rewrite <- (ilog2_proper x y Hx Hxy).
  rewrite (rint_proper (x / 2 ^ (ilog2 x - 52)) (y / 2 ^ (ilog2 x - 52)));
    [reflexivity|]. unfold Qdiv. apply Qmult_comp; [exact Hxy|reflexivity].
Qed.

Lemma round_pos_mono (x y : Q) :
  0 < x → x <= y → round_pos x <= round_pos y.
Proof.
  intros Hx Hxy. assert (0 < y) as Hy by lra.
  pose proof (ilog2_mono x y Hx Hxy) as He.
  destruct (Z.eq_dec (ilog2 x) (ilog2 y)) as [Heq|Hne].
  - unfold round_pos. rewrite <- Heq.
    pose proof (pow2_pos (ilog2 x - 52)) as Hu.
    apply Qmult_le_compat_r; [|lra].
    rewrite <- Zle_Qle. apply rint_mono.
    apply Qmult_le_compat_r; [exact Hxy|].
    apply Qlt_le_weak, Qinv_lt_0_compat, Hu.
  - destruct (round_pos_bounds x Hx) as [_ Hhi].
    destruct (round_pos_bounds y Hy) as [Hlo _].
    assert (2 ^ (ilog2 x + 1) <= 2 ^ ilog2 y) by (apply pow2_le; lia).
    lra.
Qed.

(** A 53-bit significand times a power of two is its own rounding. *)
Lemma round_pos_exact (m k : Z) :
  (2 ^ 52 <= m <= 2 ^ 53)%Z →
  round_pos (inject_Z m * 2 ^ (k - 52)) == inject_Z m * 2 ^ (k - 52).
Proof.
  assert (∀ m k, (2 ^ 52 <= m < 2 ^ 53)%Z →
            round_pos (inject_Z m * 2 ^ (k - 52))
            == inject_Z m * 2 ^ (k - 52)) as Hstrict.
  { clear m k. intros m k [Hlo Hhi].
    pose proof (pow2_pos (k - 52)) as Hu.
    rewrite Zle_Qle in Hlo. rewrite Zlt_Qlt in Hhi.
    assert (ilog2 (inject_Z m * 2 ^ (k - 52)) = k) as He.
    { apply ilog2_unique.
      - rewrite (pow2_shift 52 k) by lia.
        apply Qmult_le_compat_r; lra.
      - rewrite (pow2_shift 53 (k + 1)) by lia.
        replace (k + 1 - 53)%Z with (k - 52)%Z by lia.
        apply Qmult_lt_compat_r; assumption. }
    unfold round_pos. rewrite He.
    rewrite (rint_proper _ (inject_Z m)); [by rewrite rint_Z|].
    field. lra. }
  intros [Hlo Hhi]. destruct (Z.eq_dec m (2 ^ 53)%Z) as [ -> |Hne].
  - assert (inject_Z (2 ^ 53) * 2 ^ (k - 52)
            == inject_Z (2 ^ 52) * 2 ^ (k + 1 - 52)) as Heq.
    { replace (k + 1 - 52)%Z with (k - 52 + 1)%Z by lia.
      rewrite pow2_succ. change (inject_Z (2 ^ 53)) with (2 * inject_Z (2 ^ 52)).
      ring. }
    assert (0 < inject_Z (2 ^ 53) * 2 ^ (k - 52)) as Hpos.
    { apply Qmult_lt_0_compat; [reflexivity|apply pow2_pos]. }
    rewrite (round_pos_proper _ _ Hpos Heq), Heq.
    apply Hstrict. lia.
  - apply Hstrict. lia.
Qed.

Lemma round_pos_double (x : Q) :
  0 < x → round_pos (2 * round_pos x) == 2 * round_pos x.
Proof.
  intros Hx. pose proof (significand_range x Hx) as Hm.
  unfold round_pos at 2 3.
  set (m := rint (x / 2 ^ (ilog2 x - 52))) in *.
  assert (2 * (inject_Z m * 2 ^ (ilog2 x - 52))
          == inject_Z m * 2 ^ (ilog2 x + 1 - 52)) as Heq.
  { replace (ilog2 x + 1 - 52)%Z with (ilog2 x - 52 + 1)%Z by lia.
    rewrite pow2_succ. ring. }
  assert (0 < inject_Z m) as Hmpos.
  { change 0 with (inject_Z 0). rewrite <- Zlt_Qlt. lia. }
  pose proof (pow2_pos (ilog2 x - 52)) as Hu.
  assert (0 < 2 * (inject_Z m * 2 ^ (ilog2 x - 52))) as Hpos.
  { assert (0 < inject_Z m * 2 ^ (ilog2 x - 52))
      by (apply Qmult_lt_0_compat; assumption).
    lra. }
  rewrite (round_pos_proper _ _ Hpos Heq), Heq.
  apply round_pos_exact, Hm.
Qed.

Lemma round_positive (x : Q) : 0 < x → round x = round_pos x.
Proof.
  intros Hx. unfold round.
  destruct (Qcompare_spec 0 x) as [H|H|H];
    [exfalso; lra|reflexivity|exfalso; lra].
Qed.

Lemma round_zero (x : Q) : x == 0 → round x = 0.
Proof.
  intros Hx. unfold round.
  destruct (Qcompare_spec 0 x) as [H|H|H];
    [reflexivity|exfalso; lra|exfalso; lra].
Qed.

Lemma round_pos_positive (x : Q) : 0 < x → 0 < round_pos x.
Proof.
  intros Hx. destruct (round_pos_bounds x Hx) as [Hlo _].
  pose proof (pow2_pos (ilog2 x)). lra.
Qed.

Lemma round_proper (x y : Q) : x == y → round x == round y.
Proof. intros Hxy. unfold round.
  assert (Qcompare 0 x = Qcompare 0 y) as <- by (rewrite Hxy; reflexivity).
  destruct (Qcompare_spec 0 x) as [H0|Hpos|Hneg].
  - reflexivity.
  - apply round_pos_proper; assumption.
  - apply Qopp_comp. apply round_pos_proper; lra.
Qed.

Lemma round_mono (x y : Q) : 0 <= x → x <= y → round x <= round y.
Proof.
  intros Hx Hxy. destruct (Qlt_le_dec 0 x) as [Hpos|Hzero].
  - rewrite !round_positive by lra. by apply round_pos_mono.
  - rewrite (round_zero x) by lra.
    destruct (Qlt_le_dec 0 y) as [Hy|Hy].
    + rewrite round_positive by assumption.
      apply Qlt_le_weak, round_pos_positive, Hy.
    + rewrite (round_zero y) by lra. lra.
Qed.

Lemma round_0 : round 0 == 0.
Proof. reflexivity. Qed.

Lemma round_1 : round 1 == 1.
Proof. vm_compute. reflexivity. Qed.

Lemma round_double (x : Q) :
  0 <= x <= 1 → round (2 * round x) == 2 * round x.
Proof.
  intros [Hx _]. destruct (Qlt_le_dec 0 x) as [Hpos|Hzero].
  - rewrite (round_positive x Hpos).
    pose proof (round_pos_positive x Hpos).
    rewrite round_positive by lra. by apply round_pos_double.
  - rewrite (round_zero x) by lra. reflexivity.
Qed.

End Binary64.

(** ** Missing and malformed substructure *)

Section Degradation.

Import Py Spec Evaluate Score.

Local Open Scope Q_scope.

Variable fl : Q → Q.
Hypothesis fl_proper : ∀ x y, x == y → fl x == fl y.
Hypothesis fl_0 : fl 0 == 0.

Lemma records_ok (l : list json) :
  Forall artifact_record l → Forall (λ a, is_ok (normalize a)) l.
Proof.
  intros Hl. eapply Forall_impl; [exact Hl|]. apply artifact_record_ok.
Qed.

(** C7, as the code has it: on documents that are not objects, that lack
    the keys, or whose artifact entries are records (objects whose type
    and value are strings or absent) listed in phase groups that are
    objects, [to_artifact_set] and [to_phase_map] raise nothing;
    [precision_recall_f1] and [mapping_accuracy] raise nothing on any
    sets and maps; an absent list gives the empty set or map, and an empty
    set or map gives 0.0 scores. *)
Theorem evaluator_degrades_on_absence :
  (∀ obj entries,
     has_entries "artifacts" obj entries → Forall artifact_record entries →
     is_ok (to_artifact_set obj)) ∧
  (∀ obj items groups,
     has_entries "kill_chain_mapping" obj items →
     Forall2 is_group items groups →
     Forall (λ g, Forall artifact_record g.2) groups →
     is_ok (to_phase_map obj)) ∧
  (∀ obj, has_entries "artifacts" obj [] → to_artifact_set obj = Ok ∅) ∧
  (∀ obj, has_entries "kill_chain_mapping" obj [] →
     to_phase_map obj = Ok ∅) ∧
  (∀ S T, is_ok (precision_recall_f1 fl S T)) ∧
  (∀ (pm tm : gmap (string * string) json) veq,
     is_ok (mapping_accuracy veq fl pm tm)) ∧
  (∀ S T, S = ∅ ∨ T = ∅ →
     ∃ p r f, precision_recall_f1 fl S T = Ok (p, r, f) ∧
       p == 0 ∧ r == 0 ∧ f == 0) ∧
  (∀ (pm tm : gmap (string * string) json) veq,
     pm = ∅ ∨ tm = ∅ → mapping_accuracy veq fl pm tm = Ok 0).
Proof.
  split_and!.
  - intros obj entries Hobj Hrec. rewrite (to_artifact_set_entries _ _ Hobj).
    destruct (add_artifacts_spec entries ∅ (records_ok _ Hrec))
      as (S & -> & _). done.
  - intros obj items groups Hobj Hgroups Hrec.
    rewrite (to_phase_map_entries _ _ Hobj).
    assert (Forall (λ g : json * list json,
                      Forall (λ a, is_ok (normalize a)) g.2) groups) as Hok.
    { eapply Forall_impl; [exact Hrec|]. intros g. apply records_ok. }
    destruct (add_phases_spec items groups ∅ Hgroups Hok) as (M & -> & _).
    done.
  - intros obj Hobj. by rewrite (to_artifact_set_entries _ _ Hobj).
  - intros obj Hobj. by rewrite (to_phase_map_entries _ _ Hobj).
  - intros S T.
    destruct (precision_recall_f1_steps fl S T)
      as (p & r & f & _ & _ & _ & ->). done.
  - intros pm tm veq. apply mapping_accuracy_ok.
  - intros S T. by apply precision_recall_f1_absent.
  - intros pm tm veq. apply mapping_accuracy_absent.
Qed.

End Degradation.

(** ** The theorems at sample inputs *)

Section Samples.

Import Py Spec Evaluate Score Recovery Sample.

Local Open Scope Q_scope.

Lemma precision_recall_f1_formula_witness :
  ∃ p r f, precision_recall_f1 Float.round predicted truth = Ok (p, r, f) ∧
    (Float.round (p + r) == 0 → f = 0) ∧
    (¬ Float.round (p + r) == 0 →
       f = Float.round
             (Float.round (Float.round (2 * p) * r) / Float.round (p + r))).
Proof.
  destruct (precision_recall_f1_formula Float.round round_mono round_0
              round_1 predicted truth)
    as (p & r & f & Heq & _ & _ & _ & _ & Hz & Hnz).
  exists p, r, f. split; [exact Heq|]. split; [exact Hz|exact Hnz].
Defined.

Lemma precision_recall_f1_swap_witness :
  ∃ p r f f',
    precision_recall_f1 Float.round predicted truth = Ok (p, r, f) ∧
    precision_recall_f1 Float.round truth predicted = Ok (r, p, f') ∧
    f' == f.
Proof.
  exact (precision_recall_f1_swap Float.round round_proper round_0
           round_double predicted truth).
Defined.

Lemma precision_recall_f1_empty_witness :
  precision_recall_f1 Float.round ∅ ∅ = Ok (0, 0, 0).
Proof. exact (precision_recall_f1_empty Float.round round_0). Defined.

Lemma scores_in_unit_interval_witness :
  ∃ p r f acc,
    precision_recall_f1 Float.round predicted truth = Ok (p, r, f) ∧
    mapping_accuracy String.eqb Float.round predicted_map truth_map
      = Ok acc ∧
    0 <= p <= 1 ∧ 0 <= r <= 1 ∧ 0 <= f <= 1 ∧ 0 <= acc <= 1.
Proof.
  exact (scores_in_unit_interval Float.round round_proper round_mono
           round_0 round_1 round_double String.eqb predicted truth
           predicted_map truth_map).
Defined.

Lemma normalize_record_witness :
  ∃ a_type a_val,
    normalize (artifact " IP " " 1.2.3.4 ") = Ok (a_type, a_val) ∧
    (∃ m, stripped_of " IP " m ∧ lowered_of m a_type) ∧
    stripped_of " 1.2.3.4 " a_val.
Proof.
  destruct (normalize_record
              [("type", JStr " IP "); ("value", JStr " 1.2.3.4 ")]
              (Some " IP ") (Some " 1.2.3.4 ") eq_refl eq_refl)
    as (a_type & a_val & Heq & Ht & _ & Hv & _).
  exists a_type, a_val. split; [exact Heq|]. split; [exact Ht|exact Hv].
Defined.

Lemma mapping_accuracy_shared_keys_witness :
  mapping_accuracy String.eqb Float.round
    {[ip_10 := "Initial Access"]} truth_map = Ok 0.
Proof.
  destruct (mapping_accuracy_shared_keys Float.round
              {[ip_10 := "Initial Access"]} truth_map) as [Hdisjoint _].
  apply Hdisjoint. unfold truth_map. rewrite !dom_singleton_L.
  apply disjoint_singleton_l, not_elem_of_singleton. discriminate.
Defined.

Lemma extraction_entries_ok :
  Forall (λ a, is_ok (normalize a))
    [artifact " IP " "1.2.3.4"; artifact "ip" " "].
Proof. repeat constructor. Qed.

Lemma twice_mapped_groups :
  Forall2 is_group
    [JDict [("phase", JStr "Initial Access");
            ("artifacts", JList [artifact " IP " "1.2.3.4"])];
     JDict [("phase", JStr "Persistence");
            ("artifacts", JList [artifact "ip" "1.2.3.4 "])]]
    groups_of_twice_mapped.
Proof.
  repeat constructor; eexists; (split; [reflexivity|]);
    (split; [reflexivity|]); apply group_listed; reflexivity.
Qed.

Lemma twice_mapped_ok :
  Forall (λ g : json * list json, Forall (λ a, is_ok (normalize a)) g.2)
    groups_of_twice_mapped.
Proof. repeat constructor. Qed.

Lemma twice_mapped_listed :
  has_entries "kill_chain_mapping" twice_mapped
    [JDict [("phase", JStr "Initial Access");
            ("artifacts", JList [artifact " IP " "1.2.3.4"])];
     JDict [("phase", JStr "Persistence");
            ("artifacts", JList [artifact "ip" "1.2.3.4 "])]].
Proof. apply entries_listed. reflexivity. Qed.

Lemma to_phase_map_last_wins_witness :
  ∃ M, to_phase_map twice_mapped = Ok M ∧
    M !! ("ip", "1.2.3.4") = Some (JStr "Persistence").
Proof.
  destruct (to_phase_map_last_wins twice_mapped _ groups_of_twice_mapped
              twice_mapped_listed twice_mapped_groups twice_mapped_ok)
    as (M & HM & Hlast).
  exists M. split; [exact HM|]. apply Hlast.
  exists 1%nat, (JStr "Persistence", [artifact "ip" "1.2.3.4 "]).
  split; [reflexivity|]. split; [reflexivity|]. split.
  - split; [reflexivity|]. split; [discriminate|]. split; [discriminate|].
    eexists. split; [left|reflexivity].
  - intros [|[|j]] g' Hj; [lia|lia|discriminate].
Defined.

Lemma extraction_listed :
  has_entries "artifacts" extraction
    [artifact " IP " "1.2.3.4"; artifact "ip" " "].
Proof. apply entries_listed. reflexivity. Qed.

Lemma extraction_records :
  Forall artifact_record [artifact " IP " "1.2.3.4"; artifact "ip" " "].
Proof.
  repeat constructor.
  - eexists _, (Some _), (Some _).
    split; [reflexivity|]. split; reflexivity.
  - eexists _, (Some _), (Some _).
    split; [reflexivity|]. split; reflexivity.
Qed.

Lemma evaluator_degrades_on_absence_witness :
  is_ok (to_artifact_set extraction) ∧
  to_artifact_set JNull = Ok ∅ ∧
  to_phase_map (JDict []) = Ok ∅.
Proof.
  destruct (evaluator_degrades_on_absence Float.round round_proper round_0)
    as (Hset & _ & Hnone & Hnomap & _).
  split; [|split].
  - exact (Hset extraction _ extraction_listed extraction_records).
  - apply Hnone. apply entries_not_object. discriminate.
  - apply Hnomap. apply entries_absent. reflexivity.
Defined.

Lemma to_artifact_set_exact_witness :
  ∃ S, to_artifact_set extraction = Ok S ∧
    ∀ t v, (t, v) ∈ S ↔
      ∃ a, a ∈ [artifact " IP " "1.2.3.4"; artifact "ip" " "] ∧
        normalize a = Ok (t, v) ∧ t ≠ "" ∧ v ≠ "".
Proof.
  exact (to_artifact_set_exact extraction _ extraction_listed
           extraction_entries_ok).
Defined.

Lemma sample_loads_doc s e : sample_loads s = inl e → err_doc e = s.
Proof.
  unfold sample_loads.
  destruct (String.eqb s "{}"); [done|].
  destruct (String.eqb s "[1]"); [done|]. by intros [= <-].
Qed.

Lemma sample_loads_empty x : sample_loads EmptyString ≠ inr x.
Proof. done. Qed.

(** The fenced scenario: the object between the marker and the closing
    fence is returned. *)
Lemma parse_response_recovery_witness :
  (parse_response sample_loads " {} ").2 = Ok (JDict []) ∧
  (parse_response sample_loads "Here you go: ```json {} ``` bye").2
    = Ok (JDict []).
Proof.
  split.
  - apply (parse_response_recovery sample_loads sample_loads_doc
             sample_loads_empty " {} "); [done|].
    by exists [].
  - eapply (parse_response_recovery sample_loads sample_loads_doc
              sample_loads_empty "Here you go: ```json {} ``` bye"
            ) with (mid := " {} "); [done| |done|by exists []].
    change " {} " with
      (String.substring (13 + 7) (24 - (13 + 7))
         (strip "Here you go: ```json {} ``` bye")).
    apply fenced_intro; by apply index_first.
Defined.

(** The end-to-end scenarios of the specification, run. *)
Example scenario_scores :
  ∃ p r f, precision_recall_f1 Float.round predicted truth = Ok (p, r, f) ∧
    p == 1 # 2 ∧ r == 1 # 2 ∧ f == 1 # 2.
Proof.
  eexists _, _, _. split; [vm_compute; reflexivity|]. by vm_compute.
Qed.

Example scenario_accuracy :
  ∃ acc, mapping_accuracy String.eqb Float.round predicted_map truth_map
           = Ok acc ∧ acc == 1.
Proof. eexists. split; [vm_compute; reflexivity|]. by vm_compute. Qed.

Example scenario_not_json :
  ∃ e, (parse_response sample_loads "not json at all").2 = Raise (Failed e).
Proof. eexists. reflexivity. Qed.

(** C7, counterexample: a number in the artifact list makes
    [to_artifact_set] raise. *)
Lemma to_artifact_set_number_entry_raises :
  to_artifact_set number_entry = Raise AttributeError.
Proof. reflexivity. Qed.

(** C3, counterexample: the text [[1]] parses as JSON, yet the parsed
    value is not returned. *)
Lemma parse_response_drops_json_array :
  sample_loads (strip "[1]") = inr (JList [JNum 1]) ∧
  (parse_response sample_loads "[1]").2 = Raise AttributeError.
Proof. split; reflexivity. Qed.

End Samples.

(** * Further properties of the evaluator *)

(** ** Normal forms *)

Section NormalForms.

Import Py Spec Shape Evaluate.

Lemma append_empty (s : string) : s +:+ EmptyString = s.
Proof.
  induction s as [|c s IH]; [done|].
  change (String c (s +:+ EmptyString) = String c s). by rewrite IH.
Qed.

Lemma strip_strip (s : string) : strip (strip s) = strip s.
Proof.
  symmetry. apply stripped_of_inv.
  destruct (stripped_of_strip s) as (_ & _ & _ & _ & _ & Htrim).
  exists EmptyString, EmptyString. split_and!; try done.
  change (strip s = strip s +:+ EmptyString). by rewrite append_empty.
Qed.

Lemma lower_char_lower_char (c : ascii) :
  lower_char (lower_char c) = lower_char c.
Proof. by destruct c as [[] [] [] [] [] [] [] []]. Qed.

Lemma lower_lower (s : string) : lower (lower s) = lower s.
Proof.
  induction s as [|c s IH]; [done|]. simpl.
  by rewrite lower_char_lower_char, IH.
Qed.

(** What [normalize] returns, it returns again. *)
Lemma normalize_normal (a : json) (t v : string) :
  normalize a = Ok (t, v) →
  strip t = t ∧ lower t = t ∧ strip v = v.
Proof.
  unfold normalize. destruct (field a "type") as [t0|]; [|done]. simpl.
  destruct (field a "value") as [v0|]; [|done]. simpl.
  intros [= <- <-]. split_and!.
  - by rewrite <- lower_strip, strip_strip.
  - apply lower_lower.
  - apply strip_strip.
Qed.

Lemma normalize_raise (a : json) (e : exn) :
  normalize a = Raise e → e = AttributeError.
Proof.
  unfold normalize, field.
  destruct a as [| | | | |d]; simpl; try by intros [= <-].
  destruct (or_else (default JNull (assoc "type" d)) (JStr ""));
    simpl; try by intros [= <-].
  destruct (or_else (default JNull (assoc "value" d)) (JStr ""));
    simpl; by intros [= <-].
Qed.

(** X1: normalisation is idempotent: the record made of a normalised type
    and value normalises to that same pair. *)
Theorem normalize_idempotent (a : json) (t v : string) :
  normalize a = Ok (t, v) →
  normalize (JDict [("type", JStr t); ("value", JStr v)]) = Ok (t, v).
Proof.
  intros (Ht & Hlow & Hv)%normalize_normal.
  unfold normalize.
  rewrite (field_string [("type", JStr t); ("value", JStr v)] "type"
             (Some t) eq_refl).
  rewrite (field_string [("type", JStr t); ("value", JStr v)] "value"
             (Some v) eq_refl).
  simpl. by rewrite Ht, Hlow, Hv.
Qed.

End NormalForms.

(** ** Artifact sets *)

Section ArtifactSets.

Import Py Spec Shape Evaluate.

Lemma field_ok_iff (d : list (string * json)) (k : string) :
  is_ok (field (JDict d) k) ↔ usable d k.
Proof.
  unfold field, usable, or_else. simpl.
  destruct (assoc k d) as [x|]; simpl; [|done].
  destruct x as [|b|q|s|l|e]; simpl; try done.
  - by destruct b.
  - by destruct (Qnum q =? 0)%Z.
  - by destruct (String.eqb s "").
  - by destruct l.
  - by destruct e.
Qed.

(** X2: normalising an entry raises nothing exactly when the entry is an
    object whose type and value are each absent, a string, or falsy; a
    truthy value that is no string, or an entry that is no object, raises
    [AttributeError]. *)
Theorem normalize_ok_iff (a : json) :
  (is_ok (normalize a) ↔ normalizable a) ∧
  (¬ normalizable a → normalize a = Raise AttributeError).
Proof.
  assert (is_ok (normalize a) ↔ normalizable a) as Hiff.
  { unfold normalizable. destruct a as [| | | | |d];
      try (split; [done|by intros (d & [=] & _)]).
    unfold normalize. split.
    - intros Hok. exists d. split; [done|]. rewrite <- !field_ok_iff.
      destruct (field (JDict d) "type"); [|done]. simpl in Hok.
      by destruct (field (JDict d) "value").
    - intros (d' & [= <-] & Ht & Hv). rewrite <- field_ok_iff in Ht, Hv.
      destruct (field (JDict d) "type"); [|done]. simpl.
      by destruct (field (JDict d) "value"). }
  split; [exact Hiff|]. intros Hnot.
  destruct (normalize a) as [kv|e] eqn:Hn.
  - exfalso. apply Hnot, Hiff. done.
  - by rewrite (normalize_raise _ _ Hn).
Qed.

Lemma add_artifacts_ok (l : list json) (acc S : gset (string * string)) :
  add_artifacts l acc = Ok S → Forall (λ a, is_ok (normalize a)) l.
Proof.
  revert acc. induction l as [|a l IH]; intros acc; [by constructor|].
  simpl. destruct (normalize a) as [kv|] eqn:Hkv; [|done]. simpl.
  intros Hrest. constructor; [by rewrite Hkv|by eapply IH].
Qed.

Lemma add_artifacts_raise (l : list json) (acc : gset (string * string))
    (e : exn) :
  add_artifacts l acc = Raise e →
  e = AttributeError ∧ ∃ a, a ∈ l ∧ ¬ is_ok (normalize a).
Proof.
  revert acc. induction l as [|a l IH]; intros acc; [done|].
  simpl. destruct (normalize a) as [kv|e'] eqn:Hkv; simpl.
  - intros (-> & a' & Ha' & Hbad)%IH. split; [done|].
    exists a'. split; [by right|done].
  - intros [= <-]. split; [by eapply normalize_raise|].
    exists a. split; [by left|]. rewrite Hkv. simpl. tauto.
Qed.

Lemma to_artifact_set_items (obj : json) (S : gset (string * string)) :
  to_artifact_set obj = Ok S → ∃ l, add_artifacts l ∅ = Ok S.
Proof.
  unfold to_artifact_set.
  destruct (match obj with JDict _ => _ | _ => _ end) as [x|]; [|done].
  simpl. destruct (iter x) as [l|]; [|done]. simpl. by exists l.
Qed.

(** X3: every member of an artifact set is in normal form: its type and
    value are non-empty, carry no leading or trailing whitespace, and the
    type is lower-case. *)
Theorem artifact_set_normal (obj : json) (S : gset (string * string))
    (t v : string) :
  to_artifact_set obj = Ok S → (t, v) ∈ S →
  normal_type t ∧ normal_value v.
Proof.
  intros (l & Hl)%to_artifact_set_items Hin.
  destruct (add_artifacts_spec l ∅ (add_artifacts_ok _ _ _ Hl))
    as (S' & HS' & Hmem).
  rewrite Hl in HS'. injection HS' as <-.
  apply Hmem in Hin as [Hin|(a & _ & Ha & Ht & Hv)]; [set_solver|].
  apply normalize_normal in Ha as (Hst & Hlow & Hsv).
  by repeat split.
Qed.

(** X4: the artifact set depends on which entries the document lists, not
    on their order or on repetitions: two documents listing the same
    entries give the same set, or raise the same exception. *)
Theorem to_artifact_set_members (obj1 obj2 : json) (l1 l2 : list json) :
  has_entries "artifacts" obj1 l1 → has_entries "artifacts" obj2 l2 →
  (∀ a, a ∈ l1 ↔ a ∈ l2) →
  to_artifact_set obj1 = to_artifact_set obj2.
Proof.
  intros H1 H2 Hsame.
  rewrite (to_artifact_set_entries _ _ H1), (to_artifact_set_entries _ _ H2).
  destruct (add_artifacts l1 ∅) as [S1|e1] eqn:Hl1.
  - pose proof (add_artifacts_ok _ _ _ Hl1) as Hok1.
    assert (Forall (λ a, is_ok (normalize a)) l2) as Hok2.
    { apply Forall_forall. intros a Ha. apply Hsame in Ha.
      by eapply Forall_forall in Hok1. }
    destruct (add_artifacts_spec l1 ∅ Hok1) as (S1' & HS1 & Hm1).
    destruct (add_artifacts_spec l2 ∅ Hok2) as (S2 & HS2 & Hm2).
    rewrite Hl1 in HS1. injection HS1 as <-. rewrite HS2. f_equal.
    apply set_eq. intros k. rewrite Hm1, Hm2.
    split; (intros [?|(a & Ha & ?)]; [by left|right; exists a]);
      (split; [by apply Hsame|done]).
  - apply add_artifacts_raise in Hl1 as (-> & a & Ha & Hbad).
    destruct (add_artifacts l2 ∅) as [S2|e2] eqn:Hl2.
    + exfalso. apply Hbad. apply add_artifacts_ok in Hl2.
      eapply Forall_forall in Hl2; [exact Hl2|]. by apply Hsame.
    + by apply add_artifacts_raise in Hl2 as (-> & _).
Qed.

(** X5: [to_artifact_set] raises exactly when one of the listed entries
    cannot be normalised, and what it raises then is [AttributeError]. *)
Theorem to_artifact_set_raises_iff (obj : json) (entries : list json)
    (e : exn) :
  has_entries "artifacts" obj entries →
  to_artifact_set obj = Raise e ↔
    e = AttributeError ∧ ∃ a, a ∈ entries ∧ ¬ normalizable a.
Proof.
  intros Hobj. rewrite (to_artifact_set_entries _ _ Hobj). split.
  - intros (-> & a & Ha & Hbad)%add_artifacts_raise. split; [done|].
    exists a. split; [done|]. by rewrite <- (proj1 (normalize_ok_iff a)).
  - intros (-> & a & Ha & Hbad).
    destruct (add_artifacts entries ∅) as [S|e] eqn:Hl.
    + exfalso. apply Hbad, normalize_ok_iff.
      apply add_artifacts_ok in Hl. by eapply Forall_forall in Hl.
    + by apply add_artifacts_raise in Hl as (-> & _).
Qed.

(** X6: what is found under [artifacts] when it is no list: [null], a
    boolean or a number raises [TypeError]; the empty string and the empty
    object give the empty set; a non-empty string or object raises
    [AttributeError], its characters or keys being taken for entries. *)
Theorem to_artifact_set_not_a_list (d : list (string * json)) (x : json) :
  assoc "artifacts" d = Some x →
  match x with
  | JNull | JBool _ | JNum _ => to_artifact_set (JDict d) = Raise TypeError
  | JStr EmptyString | JDict [] => to_artifact_set (JDict d) = Ok ∅
  | JStr (String _ _) | JDict (_ :: _) =>
      to_artifact_set (JDict d) = Raise AttributeError
  | JList _ => True
  end.
Proof.
  intros Hd. unfold to_artifact_set. simpl. rewrite Hd. simpl.
  destruct x as [|b|q|s|l|e]; try done.
  - by destruct s.
  - by destruct e as [|[k v] e].
Qed.

End ArtifactSets.

(** ** Phase maps *)

Section PhaseMaps.

Import Py Spec Shape Evaluate.

Lemma add_phase_keeps (ph : json) (l : list json)
    (M M' : gmap (string * string) json) :
  (∀ k x, M !! k = Some x →
     truthy x = true ∧ normal_type k.1 ∧ normal_value k.2) →
  add_phase ph l M = Ok M' →
  ∀ k x, M' !! k = Some x →
    truthy x = true ∧ normal_type k.1 ∧ normal_value k.2.
Proof.
  revert M. induction l as [|a l IH]; intros M HM; simpl.
  - by intros [= <-].
  - destruct (normalize a) as [kv|] eqn:Hkv; [|done]. simpl.
    apply IH. destruct (nonempty kv.1 && nonempty kv.2 && truthy ph)
      eqn:Hkeep; [|done].
    apply andb_prop in Hkeep as [[H1 H2]%keep_true Hph].
    intros k x. destruct (decide (kv = k)) as [<-|Hne].
    + rewrite lookup_insert_eq. intros [= <-].
      destruct kv as [t v].
      apply normalize_normal in Hkv as (Hst & Hlow & Hsv).
      by repeat split.
    + rewrite lookup_insert_ne by done. apply HM.
Qed.

Lemma add_phases_keeps (items : list json)
    (M M' : gmap (string * string) json) :
  (∀ k x, M !! k = Some x →
     truthy x = true ∧ normal_type k.1 ∧ normal_value k.2) →
  add_phases items M = Ok M' →
  ∀ k x, M' !! k = Some x →
    truthy x = true ∧ normal_type k.1 ∧ normal_value k.2.
Proof.
  revert M. induction items as [|p items IH]; intros M HM; simpl.
  - by intros [= <-].
  - destruct (get p "phase" (JStr "")) as [ph|]; [|done]. simpl.
    destruct (get p "artifacts" (JList [])) as [arts|]; [|done]. simpl.
    destruct (iter (or_else arts (JList []))) as [l|]; [|done]. simpl.
    destruct (add_phase ph l M) as [M1|] eqn:HM1; [|done]. simpl.
    apply IH. by eapply add_phase_keeps.
Qed.

(** X7: every entry of a phase map has a non-empty phase name and a key
    in normal form: type and value non-empty and free of leading and
    trailing whitespace, the type lower-case. *)
Theorem phase_map_normal (obj : json) (M : gmap (string * string) json)
    (k : string * string) (ph : json) :
  to_phase_map obj = Ok M → M !! k = Some ph →
  truthy ph = true ∧ normal_type k.1 ∧ normal_value k.2.
Proof.
  unfold to_phase_map.
  destruct (match obj with JDict _ => _ | _ => _ end) as [x|]; [|done].
  simpl. destruct (iter x) as [items|]; [|done]. simpl.
  intros HM. revert k ph. eapply add_phases_keeps; [|exact HM].
  intros k y. by rewrite lookup_empty.
Qed.

Lemma add_phases_group (p : json) (g : json * list json)
    (items : list json) (M : gmap (string * string) json) :
  is_group p g →
  add_phases (p :: items) M =
    (M' ← add_phase g.1 g.2 M; add_phases items M').
Proof.
  intros (d & -> & Hph & Hent). simpl.
  by rewrite <- Hph, (group_iter _ _ Hent).
Qed.

Lemma add_phases_keys (items : list json) (groups : list (json * list json))
    (M0 : gmap (string * string) json) :
  Forall2 is_group items groups →
  Forall (λ g, Forall (λ a, is_ok (normalize a)) g.2) groups →
  ∃ M, add_phases items M0 = Ok M ∧
    ∀ k, k ∈ dom M ↔ k ∈ dom M0 ∨ ∃ g, g ∈ groups ∧ holds g k.
Proof.
  intros Hgroups. revert M0.
  induction Hgroups as [|p g items groups Hg _ IH]; intros M0 Hok.
  - exists M0. split; [done|]. intros k. split; [by left|].
    intros [?|(g & Hg & _)]; [done|]. by apply elem_of_nil in Hg.
  - apply Forall_cons in Hok as [Hokg Hok].
    rewrite (add_phases_group _ _ _ _ Hg). destruct g as [name l].
    simpl in *.
    destruct (add_phase_spec name l M0 Hokg) as (M1 & -> & HM1). simpl.
    destruct (IH M1 Hok) as (M & -> & HM). exists M. split; [done|].
    intros k. rewrite HM, !elem_of_dom.
    destruct (HM1 k) as [[Hh Hk]|[Hn Hk]]; rewrite Hk.
    + split; [|by eauto]. intros _. right. exists (name, l).
      split; [by left|done].
    + split.
      * intros [?|(g & Hg' & Hh)]; [by left|]. right. exists g.
        split; [by right|done].
      * intros [?|(g & Hg' & Hh)]; [by left|].
        apply elem_of_cons in Hg' as [->|Hg']; [done|]. right. by exists g.
Qed.

Lemma holds_listing (g : json * list json) (k : string * string) :
  Forall (λ a, is_ok (normalize a)) g.2 →
  holds g k ↔
    truthy g.1 = true ∧
    ∃ S, to_artifact_set (listing g.2) = Ok S ∧ k ∈ S.
Proof.
  intros Hok.
  assert (to_artifact_set (listing g.2) = add_artifacts g.2 ∅) as ->.
  { apply to_artifact_set_entries. by apply entries_listed. }
  destruct (add_artifacts_spec g.2 ∅ Hok) as (S & -> & HS).
  unfold holds. split.
  - intros (Hph & H1 & H2 & a & Ha & Hn). split; [done|].
    exists S. split; [done|]. apply HS. right. by exists a.
  - intros (Hph & S' & [= <-] & Hk).
    apply HS in Hk as [?|(a & Ha & Hn & H1 & H2)]; [set_solver|].
    split_and!; try done. by exists a.
Qed.

(** X8: the keys of the phase map are exactly the members of the artifact
    sets of the groups that have a non-empty phase name. *)
Theorem phase_map_keys (obj : json) (items : list json)
    (groups : list (json * list json)) :
  has_entries "kill_chain_mapping" obj items →
  Forall2 is_group items groups →
  Forall (λ g, Forall (λ a, is_ok (normalize a)) g.2) groups →
  ∃ M, to_phase_map obj = Ok M ∧
    ∀ k, k ∈ dom M ↔
      ∃ g S, g ∈ groups ∧ truthy g.1 = true ∧
        to_artifact_set (listing g.2) = Ok S ∧ k ∈ S.
Proof.
  intros Hobj Hgroups Hok. rewrite (to_phase_map_entries _ _ Hobj).
  destruct (add_phases_keys items groups ∅ Hgroups Hok) as (M & -> & HM).
  exists M. split; [done|]. intros k. rewrite HM, dom_empty_L. split.
  - intros [?|(g & Hg & Hh)]; [set_solver|].
    apply holds_listing in Hh as (Hph & S & HS & Hk).
    + by exists g, S.
    + by eapply Forall_forall in Hok.
  - intros (g & S & Hg & Hph & HS & Hk). right. exists g. split; [done|].
    apply holds_listing; [by eapply Forall_forall in Hok|]. eauto.
Qed.

Lemma add_phase_nothing (ph : json) (l : list json)
    (M : gmap (string * string) json) :
  Forall (λ a, is_ok (normalize a)) l →
  truthy ph = false ∨ l = [] →
  add_phase ph l M = Ok M.
Proof.
  intros Hok [Hph| ->]; [|done].
  induction Hok as [|a l Ha _ IH]; [done|]. simpl.
  destruct (normalize a) as [kv|]; [|done]. simpl.
  by rewrite Hph, andb_false_r.
Qed.

Lemma add_phases_app (items1 items2 : list json)
    (M : gmap (string * string) json) :
  add_phases (items1 ++ items2) M =
    (M' ← add_phases items1 M; add_phases items2 M').
Proof.
  revert M. induction items1 as [|p items1 IH]; intros M; [done|].
  simpl. destruct (get p "phase" (JStr "")) as [ph|]; [|done]. simpl.
  destruct (get p "artifacts" (JList [])) as [arts|]; [|done]. simpl.
  destruct (iter (or_else arts (JList []))) as [l|]; [|done]. simpl.
  destruct (add_phase ph l M) as [M1|]; [|done]. simpl. apply IH.
Qed.

(** X9: a group with an empty phase name, or with no artifact entries,
    leaves the phase map as it would be without the group, provided its
    entries can be normalised. *)
Theorem to_phase_map_skips_group (obj1 obj2 : json)
    (items1 items2 : list json) (p : json) (g : json * list json) :
  has_entries "kill_chain_mapping" obj1 (items1 ++ p :: items2) →
  has_entries "kill_chain_mapping" obj2 (items1 ++ items2) →
  is_group p g →
  Forall (λ a, is_ok (normalize a)) g.2 →
  truthy g.1 = false ∨ g.2 = [] →
  to_phase_map obj1 = to_phase_map obj2.
Proof.
  intros H1 H2 Hg Hok Hskip.
  rewrite (to_phase_map_entries _ _ H1), (to_phase_map_entries _ _ H2).
  rewrite !add_phases_app.
  destruct (add_phases items1 ∅) as [M|]; [|done].
  change (add_phases (p :: items2) M = add_phases items2 M).
  by rewrite (add_phases_group _ _ _ _ Hg),
    (add_phase_nothing _ _ _ Hok Hskip).
Qed.

(** X10: what [to_phase_map] does with a [kill_chain_mapping] that is no
    list of objects: [null], a boolean or a number raises [TypeError]; a
    first group that is no object raises [AttributeError], as does a
    non-empty string or object, its characters or keys being taken for
    groups; the empty string, object and list give the empty map. *)
Theorem to_phase_map_not_groups (d : list (string * json)) (x : json) :
  assoc "kill_chain_mapping" d = Some x →
  match x with
  | JNull | JBool _ | JNum _ => to_phase_map (JDict d) = Raise TypeError
  | JStr EmptyString | JDict [] | JList [] => to_phase_map (JDict d) = Ok ∅
  | JStr (String _ _) | JDict (_ :: _) =>
      to_phase_map (JDict d) = Raise AttributeError
  | JList (p :: _) =>
      (∀ dp, p ≠ JDict dp) → to_phase_map (JDict d) = Raise AttributeError
  end.
Proof.
  intros Hd. unfold to_phase_map. simpl. rewrite Hd. simpl.
  destruct x as [|b|q|s|l|e]; try done.
  - by destruct s.
  - destruct l as [|p l]; [done|]. intros Hp.
    destruct p; try done. by destruct (Hp l0).
  - by destruct e as [|[k v] e].
Qed.

End PhaseMaps.

(** ** More on the scores *)

Local Open Scope Q_scope.

Lemma filter_all {A} (P : A → Prop) `{!∀ x, Decision (P x)} (l : list A) :
  (∀ x, x ∈ l → P x) → filter P l = l.
Proof.
  induction l as [|a l IH]; intros HP; [done|].
  rewrite filter_cons_True by (apply HP; by left).
  rewrite IH; [done|]. intros x Hx. apply HP. by right.
Qed.

Section PerfectScores.

Import Score.

Variable fl : Q → Q.
Hypothesis fl_proper : ∀ x y, x == y → fl x == fl y.
Hypothesis fl_1 : fl 1 == 1.
Hypothesis fl_double : ∀ x, 0 <= x <= 1 → fl (2 * fl x) == 2 * fl x.

#[local] Instance fl_Proper_perfect : Proper (Qeq ==> Qeq) fl.
Proof. intros x y. apply fl_proper. Qed.

Lemma fl_2 : fl 2 == 2.
Proof.
  assert (fl (2 * fl 1) == 2 * fl 1) as H by (apply fl_double; lra).
  rewrite fl_1 in H. exact H.
Qed.

Lemma ratio_whole (a : nat) q :
  (0 < a)%nat →
  (if (0 <? a + 0)%nat then int_div fl a (a + 0) else Ok 0) = Ok q →
  q == 1.
Proof.
  intros Ha. destruct (ratio_ok fl a 0) as (q' & -> & _ & Hnz).
  intros [= <-]. rewrite Hnz by lia. rewrite Nat.add_0_r, <- fl_1.
  apply fl_proper. field.
  change 0 with (inject_Z 0). rewrite inject_Z_injective. lia.
Qed.

Lemma size_positive (S : gset (string * string)) : S ≠ ∅ → (0 < size S)%nat.
Proof.
  intros HS. destruct (size S) eqn:Hs; [|lia].
  by apply size_empty_iff, leibniz_equiv in Hs.
Qed.

(** X11: a prediction that contains only true artifacts has precision
    1.0, and a prediction that contains every true artifact has recall
    1.0. *)
Theorem precision_recall_on_subsets (pred truth : gset (string * string)) :
  ∃ p r f, precision_recall_f1 fl pred truth = Ok (p, r, f) ∧
    (pred ⊆ truth → pred ≠ ∅ → p == 1) ∧
    (truth ⊆ pred → truth ≠ ∅ → r == 1).
Proof.
  clear fl_double.
  destruct (precision_recall_f1_steps fl pred truth)
    as (p & r & f & Hp & Hr & _ & Hprf).
  exists p, r, f. split; [done|]. split.
  - intros Hsub Hne.
    replace (pred ∩ truth) with pred in Hp by set_solver.
    replace (pred ∖ truth) with (∅ : gset (string * string)) in Hp
      by set_solver.
    rewrite size_empty in Hp. eapply ratio_whole; [|exact Hp].
    by apply size_positive.
  - intros Hsub Hne.
    replace (pred ∩ truth) with truth in Hr by set_solver.
    replace (truth ∖ pred) with (∅ : gset (string * string)) in Hr
      by set_solver.
    rewrite size_empty in Hr. eapply ratio_whole; [|exact Hr].
    by apply size_positive.
Qed.

Lemma precision_recall_f1_same (S : gset (string * string)) :
  S ≠ ∅ →
  ∃ p r f, precision_recall_f1 fl S S = Ok (p, r, f) ∧
    p == 1 ∧ r == 1 ∧ f == 1.
Proof.
  intros Hne.
  destruct (precision_recall_f1_steps fl S S)
    as (p & r & f & Hp & Hr & Hf & Hprf).
  replace (S ∩ S) with S in Hp, Hr by set_solver.
  replace (S ∖ S) with (∅ : gset (string * string)) in Hp, Hr by set_solver.
  rewrite size_empty in Hp, Hr.
  apply ratio_whole in Hp; [|by apply size_positive].
  apply ratio_whole in Hr; [|by apply size_positive].
  exists p, r, f. split_and!; try done.
  assert (fl (p + r) == 2) as Hsum.
  { rewrite Hp, Hr. change (1 + 1) with 2. apply fl_2. }
  destruct (f1_ok fl (fl (fl (2 * p) * r)) p r) as (f' & Hf' & _ & Hpos).
  rewrite Hf in Hf'. injection Hf' as <-.
  rewrite Hpos by lra. rewrite Hsum, Hp, Hr.
  change (2 * 1) with 2. rewrite fl_2.
  change (2 * 1) with 2. rewrite fl_2.
  rewrite <- fl_1. apply fl_proper. reflexivity.
Qed.

(** X12: a non-empty set scored against itself has precision, recall and
    F1 all 1.0. *)
Theorem precision_recall_f1_perfect (S : gset (string * string)) :
  S ≠ ∅ →
  ∃ p r f, precision_recall_f1 fl S S = Ok (p, r, f) ∧
    p == 1 ∧ r == 1 ∧ f == 1.
Proof. apply precision_recall_f1_same. Qed.

Lemma mapping_accuracy_same {V} (veq : V → V → bool)
    (M : gmap (string * string) V) :
  (∀ k x, M !! k = Some x → veq x x = true) → M ≠ ∅ →
  ∃ acc, mapping_accuracy veq fl M M = Ok acc ∧ acc == 1.
Proof.
  clear fl_double.
  intros Hrefl Hne. unfold mapping_accuracy.
  replace (dom M ∩ dom M) with (dom M) by set_solver.
  rewrite decide_False by (by intros ?%dom_empty_iff_L).
  rewrite filter_all.
  2:{ intros k Hk%elem_of_elements%elem_of_dom. destruct Hk as [x Hx].
      rewrite Hx. by eapply Hrefl. }
  change (length (elements (dom M))) with (size (dom M)).
  destruct (size (dom M)) as [|n] eqn:Hn.
  { apply size_empty_iff, leibniz_equiv, dom_empty_iff_L in Hn. done. }
  eexists. split; [reflexivity|]. rewrite <- fl_1. apply fl_proper.
  field. change 0 with (inject_Z 0). rewrite inject_Z_injective. lia.
Qed.

(** X13: a non-empty map scored against itself has accuracy 1.0, when
    each of its labels equals itself. *)
Theorem mapping_accuracy_perfect {V} (veq : V → V → bool)
    (M : gmap (string * string) V) :
  (∀ k x, M !! k = Some x → veq x x = true) → M ≠ ∅ →
  ∃ acc, mapping_accuracy veq fl M M = Ok acc ∧ acc == 1.
Proof. exact (mapping_accuracy_same veq M). Qed.

End PerfectScores.

(** X14: [mapping_accuracy] is symmetric in its two maps, when the
    comparison of labels is. *)
Theorem mapping_accuracy_swap {V} (veq : V → V → bool) (fl : Q → Q)
    (A B : gmap (string * string) V) :
  (∀ x y, veq x y = veq y x) →
  Score.mapping_accuracy veq fl A B = Score.mapping_accuracy veq fl B A.
Proof.
  intros Hsym. unfold Score.mapping_accuracy.
  rewrite (comm_L (∩) (dom B) (dom A)).
  case_decide; [done|].
  erewrite filter_on_elements; [reflexivity|].
  intros k _. simpl.
  destruct (A !! k) as [a|] eqn:HA, (B !! k) as [b|] eqn:HB;
    rewrite ?HA, ?HB; try done.
  by rewrite (Hsym a b).
Qed.

Section Positive.

Import Score.

Variable fl : Q → Q.
Hypothesis fl_proper : ∀ x y, x == y → fl x == fl y.
Hypothesis fl_0 : fl 0 == 0.
Hypothesis fl_pos : ∀ x, 0 < x → 0 < fl x.

Lemma ratio_positive (a b : nat) q :
  (0 < a)%nat →
  (if (0 <? a + b)%nat then int_div fl a (a + b) else Ok 0) = Ok q →
  0 < q.
Proof.
  intros Ha. destruct (ratio_ok fl a b) as (q' & -> & _ & Hnz).
  intros [= <-]. rewrite Hnz by lia. apply fl_pos.
  apply Qlt_shift_div_l; rewrite ?Qmult_0_l;
    change 0 with (inject_Z 0); rewrite <- Zlt_Qlt; lia.
Qed.

(** X15: the three scores are all positive when the predicted and the
    true set share an artifact, and all zero when they share none. *)
Theorem scores_positive_iff_shared (S T : gset (string * string)) :
  ∃ p r f, precision_recall_f1 fl S T = Ok (p, r, f) ∧
    (S ## T → p == 0 ∧ r == 0 ∧ f == 0) ∧
    (¬ S ## T → 0 < p ∧ 0 < r ∧ 0 < f).
Proof.
  destruct (precision_recall_f1_steps fl S T)
    as (p & r & f & Hp & Hr & Hf & Hprf).
  exists p, r, f. split; [done|].
  destruct (f1_ok fl (fl (fl (2 * p) * r)) p r) as (f' & Hf' & Hz & Hpos).
  rewrite Hf in Hf'. injection Hf' as <-. split.
  - intros Hdisj.
    assert (size (S ∩ T) = 0%nat) as Htp.
    { apply size_empty_iff. set_solver. }
    rewrite Htp in Hp, Hr.
    apply (ratio_of_none fl fl_proper fl_0) in Hp.
    apply (ratio_of_none fl fl_proper fl_0) in Hr.
    split_and!; try done. rewrite Hz; [reflexivity|].
    assert (fl (p + r) == fl 0) as -> by (apply fl_proper; lra). lra.
  - intros Hshare.
    assert (0 < size (S ∩ T))%nat as Htp.
    { destruct (size (S ∩ T)) eqn:Hs; [|lia].
      exfalso. apply Hshare. apply size_empty_iff in Hs. set_solver. }
    apply ratio_positive in Hp; [|done]. apply ratio_positive in Hr; [|done].
    split_and!; try done.
    assert (0 < fl (p + r)) as Hsum by (apply fl_pos; lra).
    rewrite (Hpos Hsum). apply fl_pos.
    apply Qlt_shift_div_l; [done|]. rewrite Qmult_0_l. apply fl_pos.
    apply Qmult_lt_0_compat; [|done]. apply fl_pos. lra.
Qed.

(** X16: [mapping_accuracy] is zero exactly when no key of both maps has
    equal labels; in particular when the maps share no key. *)
Theorem mapping_accuracy_zero_iff {V} (veq : V → V → bool)
    (pm tm : gmap (string * string) V) :
  ∃ acc, mapping_accuracy veq fl pm tm = Ok acc ∧
    (acc == 0 ↔
       ∀ k a b, pm !! k = Some a → tm !! k = Some b → veq a b = false).
Proof.
  unfold mapping_accuracy. case_decide as HK.
  - exists 0. split; [done|]. split; [|done]. intros _ k a b Ha Hb.
    assert (k ∈ dom tm ∩ dom pm) as Hk
      by (apply elem_of_intersection; split; by apply elem_of_dom).
    rewrite HK in Hk. set_solver.
  - set (K := dom tm ∩ dom pm) in *.
    set (hits := filter _ (elements K)).
    assert (hits = [] ↔
            ∀ k a b, pm !! k = Some a → tm !! k = Some b → veq a b = false)
      as Hhits.
    { split.
      - intros Hnil k a b Ha Hb.
        destruct (veq a b) eqn:Hab; [|done]. exfalso.
        assert (k ∈ hits) as Hin.
        { apply list_elem_of_filter. split.
          - by rewrite Ha, Hb.
          - apply elem_of_elements, elem_of_intersection.
            split; by apply elem_of_dom. }
        rewrite Hnil in Hin. by apply elem_of_nil in Hin.
      - intros Hnone. destruct hits as [|k0 l] eqn:Hl; [done|]. exfalso.
        assert (k0 ∈ hits) as Hin by (rewrite Hl; by left).
        apply list_elem_of_filter in Hin as [Hag Hk0].
        apply elem_of_elements, elem_of_intersection in Hk0 as [Ht Hp].
        apply elem_of_dom in Ht as [b Hb]. apply elem_of_dom in Hp as [a Ha].
        rewrite Ha, Hb in Hag. by rewrite (Hnone k0 a b Ha Hb) in Hag. }
    destruct (size K) as [|n] eqn:Hn.
    { by apply size_empty_iff, leibniz_equiv in Hn. }
    eexists. split; [reflexivity|]. rewrite <- Hhits.
    destruct hits as [|k0 l].
    + split; [done|]. intros _. transitivity (fl 0); [|exact fl_0].
      apply fl_proper. unfold Qdiv. apply Qmult_0_l.
    + split; [|done]. intros Hz. exfalso.
      assert (0 < fl (inject_Z (Z.of_nat (length (k0 :: l)))
                      / inject_Z (Z.of_nat (S n)))) as Hpos.
      { apply fl_pos. apply Qlt_shift_div_l; rewrite ?Qmult_0_l;
          change 0 with (inject_Z 0); rewrite <- Zlt_Qlt; simpl; lia. }
      lra.
Qed.

End Positive.

Local Close Scope Q_scope.

(** ** Scoring two documents *)

Local Open Scope Q_scope.

Section ScoreDocuments.

Import Py Spec Shape Evaluate Score Main.

Variable fl : Q → Q.

Lemma precision_recall_f1_total (S T : gset (string * string)) :
  is_ok (precision_recall_f1 fl S T).
Proof.
  by destruct (precision_recall_f1_steps fl S T) as (p & r & f & _ & _ & _ & ->).
Qed.

(** [score_documents] on two objects, its four extractions done. *)
Lemma score_documents_parts (dp dt : list (string * json))
    (S T : gset (string * string)) (M N : gmap (string * string) json) :
  to_artifact_set (part dp "artifacts") = Ok S →
  to_artifact_set (part dt "artifacts") = Ok T →
  to_phase_map (part dp "kill_chain_analysis") = Ok M →
  to_phase_map (part dt "kill_chain_analysis") = Ok N →
  score_documents fl (JDict dp) (JDict dt) =
    (prf ← precision_recall_f1 fl S T;
     acc ← mapping_accuracy py_eq fl M N;
     Ok (prf, acc)).
Proof.
  intros HS HT HM HN. unfold score_documents, part in *. simpl.
  rewrite HS. simpl. rewrite HT. simpl.
  destruct (precision_recall_f1 fl S T); [|done]. simpl.
  rewrite HM. simpl. by rewrite HN.
Qed.

(** X17: scoring two loaded documents raises nothing exactly when both
    are objects and the artifact set and the phase map of each can be
    built; the scoring proper never raises. *)
Theorem score_documents_ok_iff (pred truth : json) :
  is_ok (score_documents fl pred truth) ↔
    ∃ dp dt, pred = JDict dp ∧ truth = JDict dt ∧
      is_ok (to_artifact_set (part dp "artifacts")) ∧
      is_ok (to_artifact_set (part dt "artifacts")) ∧
      is_ok (to_phase_map (part dp "kill_chain_analysis")) ∧
      is_ok (to_phase_map (part dt "kill_chain_analysis")).
Proof.
  split.
  - unfold score_documents, part. intros Hok.
    destruct pred as [| | | | |dp]; try done. simpl in Hok.
    destruct (to_artifact_set (default _ (assoc "artifacts" dp)))
      as [S|] eqn:HS; [|done]. simpl in Hok.
    destruct truth as [| | | | |dt]; try done. simpl in Hok.
    destruct (to_artifact_set (default _ (assoc "artifacts" dt)))
      as [T|] eqn:HT; [|done]. simpl in Hok.
    destruct (precision_recall_f1 fl S T); [|done]. simpl in Hok.
    destruct (to_phase_map (default _ (assoc "kill_chain_analysis" dp)))
      as [M|] eqn:HM; [|done]. simpl in Hok.
    destruct (to_phase_map (default _ (assoc "kill_chain_analysis" dt)))
      as [N|] eqn:HN; [|done].
    exists dp, dt. by rewrite HS, HT, HM, HN.
  - intros (dp & dt & -> & -> & HS & HT & HM & HN).
    destruct (to_artifact_set (part dp "artifacts")) as [S|] eqn:ES; [|done].
    destruct (to_artifact_set (part dt "artifacts")) as [T|] eqn:ET; [|done].
    destruct (to_phase_map (part dp "kill_chain_analysis"))
      as [M|] eqn:EM; [|done].
    destruct (to_phase_map (part dt "kill_chain_analysis"))
      as [N|] eqn:EN; [|done].
    rewrite (score_documents_parts _ _ _ _ _ _ ES ET EM EN).
    pose proof (precision_recall_f1_total S T) as Hprf.
    destruct (precision_recall_f1 fl S T); [|done]. simpl.
    pose proof (mapping_accuracy_ok fl py_eq M N) as Hacc.
    by destruct (mapping_accuracy py_eq fl M N).
Qed.

Hypothesis fl_proper : ∀ x y, x == y → fl x == fl y.
Hypothesis fl_0 : fl 0 == 0.

(** X18: a predicted document that is an object with neither an
    [artifacts] nor a [kill_chain_analysis] section scores zero four
    times against any truth document that can be scored. *)
Theorem score_documents_absent (dp dt : list (string * json))
    (T : gset (string * string)) (N : gmap (string * string) json) :
  assoc "artifacts" dp = None → assoc "kill_chain_analysis" dp = None →
  to_artifact_set (part dt "artifacts") = Ok T →
  to_phase_map (part dt "kill_chain_analysis") = Ok N →
  ∃ p r f acc,
    score_documents fl (JDict dp) (JDict dt) = Ok (p, r, f, acc) ∧
    p == 0 ∧ r == 0 ∧ f == 0 ∧ acc == 0.
Proof.
  intros Ha Hk HT HN.
  rewrite (score_documents_parts dp dt ∅ T ∅ N); try done.
  - destruct (precision_recall_f1_absent fl fl_proper fl_0 ∅ T)
      as (p & r & f & -> & Hp & Hr & Hf); [by left|]. simpl.
    rewrite (mapping_accuracy_absent fl py_eq ∅ N) by (by left). simpl.
    exists p, r, f, 0. by split_and!.
  - unfold part. by rewrite Ha.
  - unfold part. by rewrite Hk.
Qed.

Hypothesis fl_1 : fl 1 == 1.
Hypothesis fl_double : ∀ x, 0 <= x <= 1 → fl (2 * fl x) == 2 * fl x.

(** X19: a document scored against itself: with artifacts, precision,
    recall and F1 are 1.0, and with none they are 0.0; with phase
    assignments whose phase names are strings, the accuracy is 1.0, and
    with none it is 0.0. *)
Theorem score_documents_self (d : list (string * json))
    (S : gset (string * string)) (M : gmap (string * string) json) :
  to_artifact_set (part d "artifacts") = Ok S →
  to_phase_map (part d "kill_chain_analysis") = Ok M →
  (∀ k x, M !! k = Some x → ∃ s, x = JStr s) →
  ∃ p r f acc,
    score_documents fl (JDict d) (JDict d) = Ok (p, r, f, acc) ∧
    (S ≠ ∅ → p == 1 ∧ r == 1 ∧ f == 1) ∧
    (S = ∅ → p == 0 ∧ r == 0 ∧ f == 0) ∧
    (M ≠ ∅ → acc == 1) ∧
    (M = ∅ → acc == 0).
Proof.
  intros HS HM Hstr.
  rewrite (score_documents_parts d d S S M M HS HS HM HM).
  assert (∃ p r f, precision_recall_f1 fl S S = Ok (p, r, f) ∧
            (S ≠ ∅ → p == 1 ∧ r == 1 ∧ f == 1) ∧
            (S = ∅ → p == 0 ∧ r == 0 ∧ f == 0)) as (p & r & f & -> & H1 & H0).
  { destruct (decide (S = ∅)) as [HE|HE].
    - destruct (precision_recall_f1_absent fl fl_proper fl_0 S S)
        as (p & r & f & Heq & Hz); [by left|].
      exists p, r, f. by split_and!.
    - destruct (precision_recall_f1_same fl fl_proper fl_1 fl_double S HE)
        as (p & r & f & Heq & Hone).
      exists p, r, f. by split_and!. }
  assert (∃ acc, mapping_accuracy py_eq fl M M = Ok acc ∧
            (M ≠ ∅ → acc == 1) ∧ (M = ∅ → acc == 0)) as (acc & -> & A1 & A0).
  { destruct (decide (M = ∅)) as [HE|HE].
    - exists 0. rewrite (mapping_accuracy_absent fl py_eq M M) by (by left).
      by split_and!.
    - destruct (mapping_accuracy_same fl fl_proper fl_1 py_eq M)
        as (acc & Heq & Hone); [|done|].
      + intros k x [s ->]%Hstr. simpl. apply String.eqb_refl.
      + exists acc. by split_and!. }
  simpl. exists p, r, f, acc. by split_and!.
Qed.

End ScoreDocuments.

Local Close Scope Q_scope.

(** * Further properties of the analyzer *)

(** ** What the recovery block returns, raises and prints *)

Section RecoveryOutcomes.

Import Py Spec Shape Recovery.

Variable json_loads : string → decode_error + json.

Lemma deliver_ok log mk x y :
  (deliver log mk x).2 = Ok y → y = x ∧ sized_object x.
Proof.
  unfold deliver. destruct (artifact_count x) as [n|e] eqn:Hc; [|done].
  intros [= <-]. split; [done|]. apply artifact_count_sized. by rewrite Hc.
Qed.


(** The three ways through the block. *)
Lemma parse_response_cases (content : string) :
  let text := strip content in
  (∃ x, json_loads text = inr x ∧
     parse_response json_loads content = deliver [] PrintedCount x)
  ∨ (∃ e mid x, json_loads text = inl e ∧ fenced text mid ∧
       json_loads (strip mid) = inr x ∧
       parse_response json_loads content =
         deliver [PrintedParseError e; PrintedRaw text]
           PrintedCountMarkdown x)
  ∨ (∃ e, json_loads text = inl e ∧
       parse_response json_loads content =
         ([PrintedParseError e; PrintedRaw text], Raise (Failed e))).
Proof.
  intros text. destruct (json_loads text) as [e|x] eqn:He.
  - right.
    destruct (parse_response_fallback json_loads content e He)
      as [(mid & Hmid & Heq)|[_ Heq]].
    + destruct (json_loads (strip mid)) as [e'|x] eqn:Hx.
      * right. by exists e.
      * left. by exists e, mid, x.
    + right. by exists e.
  - left. exists x. split; [done|]. by apply parse_response_direct.
Qed.

Lemma recovery_returns (content : string) (x : json) :
  (parse_response json_loads content).2 = Ok x →
  parsed json_loads (strip content) x ∧ sized_object x.
Proof.
  intros Hout.
  destruct (parse_response_cases content)
    as [(y & Hy & Heq)|[(e & mid & y & He & Hmid & Hy & Heq)|(e & He & Heq)]];
    rewrite Heq in Hout.
  - apply deliver_ok in Hout as [-> Hs]. split; [by left|done].
  - apply deliver_ok in Hout as [-> Hs]. split; [|done].
    right. by exists e, mid.
  - done.
Qed.

(** X20: the recovery block returns a value exactly when [json.loads]
    gave it for the whole trimmed text, or after the failure of that parse
    for the trimmed fenced text, and it is an object whose [artifacts]
    entry, if any, has a length.  The empty text is taken not to be
    JSON. *)
Theorem parse_response_returns (content : string) (x : json) :
  (∀ y, json_loads EmptyString ≠ inr y) →
  (parse_response json_loads content).2 = Ok x ↔
    parsed json_loads (strip content) x ∧ sized_object x.
Proof.
  intros loads_empty. split; [apply recovery_returns|].
  intros [[Hx|(e & mid & He & Hmid & Hx)] Hs].
  - rewrite (parse_response_direct _ _ _ Hx). by apply deliver_sized.
  - destruct (parse_response_fallback json_loads content e He)
      as [(mid' & Hmid' & ->)|[Hnone _]].
    + rewrite <- (fenced_unique _ _ _ Hmid Hmid'), Hx.
      by apply deliver_sized.
    + rewrite (Hnone mid Hmid) in Hx. by apply loads_empty in Hx.
Qed.


(** X22: what the recovery block prints.  The parse error and the raw
    text are printed exactly when the whole text does not parse; a success
    line is printed exactly when a value is returned, the plain one after
    a parse of the whole text and the other after a parse of the fenced
    text, and it reports the length of the [artifacts] entry of that
    value, 0 when there is none. *)
Theorem parse_response_prints (content : string) :
  let text := strip content in
  let out := parse_response json_loads content in
  (∀ e, PrintedParseError e ∈ out.1 ↔ json_loads text = inl e) ∧
  (∀ s, PrintedRaw s ∈ out.1 ↔ s = text ∧ ∃ e, json_loads text = inl e) ∧
  (∀ n, PrintedCount n ∈ out.1 ↔
     ∃ x, json_loads text = inr x ∧ out.2 = Ok x ∧ artifact_count x = Ok n) ∧
  (∀ n, PrintedCountMarkdown n ∈ out.1 ↔
     ∃ e x, json_loads text = inl e ∧ out.2 = Ok x ∧
       artifact_count x = Ok n).
Proof.
  intros text out. unfold out. clear out.
  destruct (parse_response_cases content)
    as [(y & Hy & Heq)|[(e & mid & y & He & Hmid & Hy & Heq)|(e & He & Heq)]];
    fold text in Hy || fold text in He; rewrite Heq; unfold deliver.
  - destruct (artifact_count y) as [m|err] eqn:Hc; simpl; split_and!.
    all: intros; rewrite ?Hy; rewrite ?elem_of_app, ?elem_of_cons, ?elem_of_nil.
    all: try naive_solver.
    split; [naive_solver|].
    intros (x & [= <-] & _ & Hn). left. congruence.
  - destruct (artifact_count y) as [m|err] eqn:Hc; simpl; split_and!.
    all: intros; rewrite ?He; rewrite ?elem_of_app, ?elem_of_cons, ?elem_of_nil.
    all: try naive_solver.
    split; [naive_solver|].
    intros (e0 & x & _ & [= <-] & Hn). do 2 right. left. congruence.
  - simpl. split_and!.
    all: intros; rewrite ?He; rewrite ?elem_of_cons, ?elem_of_nil.
    all: try naive_solver.
Qed.

End RecoveryOutcomes.

(** ** The recovery block of the second stage *)

Section ReasoningOutcomes.

Import Py Spec Shape.

Variable json_loads : string → decode_error + json.

Lemma chain_count_chains (x : json) :
  is_ok (Reasoning.chain_count x) ↔ chains_object x.
Proof.
  unfold chains_object, Reasoning.chain_count.
  destruct x as [| | | |l|d]; simpl;
    try (split; [done|intros (d0 & Heq & _); discriminate]).
  split.
  - intros Hok. exists d. split; [done|].
    destruct (assoc "reasoning_chains" d) as [[]|]; done.
  - intros (d' & [= <-] & Hd).
    destruct (assoc "reasoning_chains" d) as [[]|]; done.
Qed.

Lemma reasoning_deliver_ok log mk x y :
  (Reasoning.deliver log mk x).2 = Ok y ↔ y = x ∧ chains_object x.
Proof.
  rewrite <- chain_count_chains. unfold Reasoning.deliver.
  destruct (Reasoning.chain_count x) as [n|e]; simpl; naive_solver.
Qed.

Lemma reasoning_deliver_not_failed log mk x e :
  (Reasoning.deliver log mk x).2 ≠ Raise (Failed e).
Proof.
  unfold Reasoning.deliver, Reasoning.chain_count.
  destruct x as [| | | |l|d]; simpl; try done.
  by destruct (assoc "reasoning_chains" d) as [[]|].
Qed.

(** The two blocks take the same way through on the same response. *)
Lemma blocks_cases (content : string) :
  let text := strip content in
  (∃ x, json_loads text = inr x ∧
     Recovery.parse_response json_loads content =
       Recovery.deliver [] Recovery.PrintedCount x ∧
     Reasoning.parse_response json_loads content =
       Reasoning.deliver [] Reasoning.PrintedChains x)
  ∨ (∃ e mid x, json_loads text = inl e ∧ fenced text mid ∧
       json_loads (strip mid) = inr x ∧
       Recovery.parse_response json_loads content =
         Recovery.deliver
           [Recovery.PrintedParseError e; Recovery.PrintedRaw text]
           Recovery.PrintedCountMarkdown x ∧
       Reasoning.parse_response json_loads content =
         Reasoning.deliver
           [Reasoning.PrintedParseError e; Reasoning.PrintedRaw text]
           Reasoning.PrintedChainsMarkdown x)
  ∨ (∃ e, json_loads text = inl e ∧
       Recovery.parse_response json_loads content =
         ([Recovery.PrintedParseError e; Recovery.PrintedRaw text],
          Raise (Failed e)) ∧
       Reasoning.parse_response json_loads content =
         ([Reasoning.PrintedParseError e; Reasoning.PrintedRaw text],
          Raise (Failed e))).
Proof.
  intros text. unfold Recovery.parse_response, Reasoning.parse_response.
  fold text. destruct (json_loads text) as [e|x] eqn:He.
  2:{ left. by exists x. }
  right. unfold Recovery.contains, Recovery.find.
  destruct (String.index 0 Recovery.marker text) as [i|] eqn:Hi.
  2:{ right. by exists e. }
  replace (Z.to_nat (Z.of_nat i + 7)) with (i + 7) by lia.
  apply index_first in Hi; [|done].
  destruct (String.index (i + 7) Recovery.fence text) as [j|] eqn:Hj.
  2:{ right. exists e.
      by destruct (Z.gtb_spec (-1) (Z.of_nat i + 7)); [lia|]. }
  pose proof (index_ge _ _ _ _ Hj) as Hge.
  apply index_first in Hj; [|done].
  destruct (Z.gtb_spec (Z.of_nat j) (Z.of_nat i + 7)) as [Hgt|Hle].
  2:{ right. by exists e. }
  unfold Recovery.slice.
  replace (Z.to_nat (Z.of_nat i + 7)) with (i + 7) by lia.
  replace (Z.to_nat (Z.of_nat j - (Z.of_nat i + 7)))
    with (j - (i + 7)) by lia.
  destruct (json_loads (strip (String.substring (i + 7) (j - (i + 7)) text)))
    as [e'|x] eqn:Hx.
  - right. by exists e.
  - left. exists e, (String.substring (i + 7) (j - (i + 7)) text), x.
    split_and!; try done. by apply fenced_intro.
Qed.

Lemma reasoning_returns (content : string) (x : json) :
  (Reasoning.parse_response json_loads content).2 = Ok x →
  parsed json_loads (strip content) x ∧ chains_object x.
Proof.
  destruct (blocks_cases content)
    as [(y & Hy & _ & ->)
       |[(e & mid & y & He & Hmid & Hy & _ & ->)|(e & He & _ & ->)]].
  - intros [-> Hc]%reasoning_deliver_ok. split; [by left|done].
  - intros [-> Hc]%reasoning_deliver_ok. split; [|done].
    right. by exists e, mid.
  - done.
Qed.

(** X23: the recovery block of the second stage treats a response as that
    of the first stage does, up to the entry it counts: a value it returns
    is one that [json.loads] gave for the whole text or the fenced text,
    and is an object whose [reasoning_chains] entry, if any, has a length;
    each block returns what the other returns whenever the value can be
    counted under both keys; and both give up on the same responses with
    the same parse error. *)
Theorem reasoning_parse_response_alike (content : string) :
  let out1 := Recovery.parse_response json_loads content in
  let out2 := Reasoning.parse_response json_loads content in
  (∀ x, out2.2 = Ok x →
     parsed json_loads (strip content) x ∧ chains_object x) ∧
  (∀ x, out1.2 = Ok x → chains_object x → out2.2 = Ok x) ∧
  (∀ x, out2.2 = Ok x → sized_object x → out1.2 = Ok x) ∧
  (∀ e, out1.2 = Raise (Failed e) ↔ out2.2 = Raise (Failed e)).
Proof.
  intros out1 out2. unfold out1, out2. clear out1 out2.
  destruct (blocks_cases content)
    as [(y & Hy & -> & ->)
       |[(e & mid & y & He & Hmid & Hy & -> & ->)|(e & He & -> & ->)]].
  - split_and!.
    + intros x [-> Hc]%reasoning_deliver_ok. split; [by left|done].
    + intros x [-> _]%deliver_ok Hc. by apply reasoning_deliver_ok.
    + intros x [-> _]%reasoning_deliver_ok Hs. by apply deliver_sized.
    + intros e. split; intros Hf.
      * by apply deliver_not_failed in Hf.
      * by apply reasoning_deliver_not_failed in Hf.
  - split_and!.
    + intros x [-> Hc]%reasoning_deliver_ok. split; [|done].
      right. by exists e, mid.
    + intros x [-> _]%deliver_ok Hc. by apply reasoning_deliver_ok.
    + intros x [-> _]%reasoning_deliver_ok Hs. by apply deliver_sized.
    + intros e'. split; intros Hf.
      * by apply deliver_not_failed in Hf.
      * by apply reasoning_deliver_not_failed in Hf.
  - by split_and!.
Qed.

End ReasoningOutcomes.

(** ** The two stages *)

Section Stages.

Import Py Spec Shape Pipeline.

Context {E : Type}.
Variable json_loads : string → decode_error + json.

(** X24: the first stage returns only a value that [json.loads] gave for
    the response or its fenced text and that is an object whose
    [artifacts] entry, if any, has a length; whatever else happens, it
    prints the extraction error last and exits with status 1, and it
    prints that error only then.  So a response that is JSON but no
    object, an array say, ends the run. *)
Theorem extract_artifacts_outcome (create : string → E + option string)
    (report_text : string) :
  let out := extract_artifacts create json_loads report_text in
  (∀ x, out.2 = Returned x →
     sized_object x ∧
     ∃ content, create report_text = inr (Some content) ∧
       parsed json_loads (strip content) x) ∧
  (∀ z, out.2 = Exited z →
     z = 1%Z ∧ ∃ c, last out.1 = Some (ExtractionFailed c)) ∧
  (∀ c, ExtractionFailed c ∈ out.1 → out.2 = Exited 1) ∧
  (∀ content x,
     create report_text = inr (Some content) →
     json_loads (strip content) = inr x → (∀ d, x ≠ JDict d) →
     out = ([ExtractionStarted; ExtractionFailed (Raised AttributeError)],
            Exited 1)).
Proof.
  intros out. unfold out, extract_artifacts. clear out.
  destruct (create report_text) as [e|[content|]]; simpl.
  1,3: split_and!; [done|intros z [= <-]; split; [done|by eexists]
                   |done|done].
  destruct (Recovery.parse_response json_loads content) as [log r] eqn:Hout.
  assert ((Recovery.parse_response json_loads content).2 = r) as Hr
    by by rewrite Hout.
  destruct r as [y|err]; simpl; split_and!.
  - intros x [= <-]. apply recovery_returns in Hr as [Hp Hs].
    split; [done|]. by exists content.
  - done.
  - intros c [Hc|Hc]%elem_of_cons; [done|].
    by apply list_elem_of_fmap in Hc as (ev & ? & _).
  - intros c x [= <-] Hx Hno. exfalso.
    rewrite (parse_response_direct _ _ _ Hx) in Hr.
    apply deliver_ok in Hr as [_ (d & -> & _)]. by destruct (Hno d).
  - done.
  - intros z [= <-]. split; [done|]. exists (Raised err).
    rewrite app_comm_cons. apply last_snoc.
  - done.
  - intros c x [= <-] Hx Hno.
    rewrite (parse_response_direct _ _ _ Hx) in Hout.
    unfold Recovery.deliver, Recovery.artifact_count in Hout.
    destruct x as [| | | | |d]; simpl in Hout; try by injection Hout as <- <-.
    by destruct (Hno d).
Qed.

(** X25: the second stage returns only a value that [json.loads] gave
    for the response or its fenced text and that is an object whose
    [reasoning_chains] entry, if any, has a length; whatever else happens,
    a completion without content included, it prints the reasoning error
    last and exits with status 1. *)
Theorem reason_and_map_outcome (create : json → E + option string)
    (artifacts_json : json) :
  let out := reason_and_map create json_loads artifacts_json in
  (∀ x, out.2 = Returned x →
     chains_object x ∧
     ∃ content, create artifacts_json = inr (Some content) ∧
       parsed json_loads (strip content) x) ∧
  (∀ z, out.2 = Exited z →
     z = 1%Z ∧ ∃ c, last out.1 = Some (ReasoningFailed c)) ∧
  (∀ c, ReasoningFailed c ∈ out.1 → out.2 = Exited 1) ∧
  (create artifacts_json = inr None →
     out = ([ReasoningStarted; ReasoningFailed (Raised AttributeError)],
            Exited 1)).
Proof.
  intros out. unfold out, reason_and_map. clear out.
  destruct (create artifacts_json) as [e|[content|]]; simpl.
  1,3: split_and!; [done|intros z [= <-]; split; [done|by eexists]
                   |done|done].
  destruct (Reasoning.parse_response json_loads content) as [log r] eqn:Hout.
  assert ((Reasoning.parse_response json_loads content).2 = r) as Hr
    by by rewrite Hout.
  destruct r as [y|err]; simpl; split_and!.
  - intros x [= <-].
    apply reasoning_returns in Hr as [Hp Hs].
    split; [done|]. by exists content.
  - done.
  - intros c [Hc|Hc]%elem_of_cons; [done|].
    by apply list_elem_of_fmap in Hc as (ev & ? & _).
  - done.
  - done.
  - intros z [= <-]. split; [done|]. exists (Raised err).
    rewrite app_comm_cons. apply last_snoc.
  - done.
  - done.
Qed.

End Stages.

(** * The further properties at sample inputs *)

Section MoreSamples.

Import Py Spec Shape Evaluate Score Recovery Sample Main.

Local Open Scope Q_scope.

Lemma round_gt0 (x : Q) : 0 < x → 0 < Float.round x.
Proof.
  intros Hx. rewrite (round_positive x Hx). by apply round_pos_positive.
Qed.

Lemma normalize_idempotent_witness :
  normalize (artifact "ip" "1.2.3.4") = Ok ("ip", "1.2.3.4")%string.
Proof.
  exact (normalize_idempotent (artifact " IP " " 1.2.3.4 ")
           "ip" "1.2.3.4" eq_refl).
Defined.

Lemma extraction_set :
  to_artifact_set extraction = Ok ({[ ("ip", "1.2.3.4")%string ]} ∪ ∅).
Proof. reflexivity. Qed.

Lemma artifact_set_normal_witness :
  normal_type "ip" ∧ normal_value "1.2.3.4".
Proof.
  apply (artifact_set_normal extraction _ "ip" "1.2.3.4" extraction_set).
  apply elem_of_union_l, elem_of_singleton. reflexivity.
Defined.

Lemma to_artifact_set_members_witness :
  to_artifact_set extraction =
  to_artifact_set
    (listing [artifact "ip" " "; artifact " IP " "1.2.3.4";
              artifact "ip" " "]).
Proof.
  apply (to_artifact_set_members _ _
           [artifact " IP " "1.2.3.4"; artifact "ip" " "]
           [artifact "ip" " "; artifact " IP " "1.2.3.4";
            artifact "ip" " "]).
  - exact extraction_listed.
  - apply entries_listed. reflexivity.
  - intros a. rewrite !elem_of_cons, !elem_of_nil. tauto.
Defined.

Lemma to_artifact_set_raises_iff_witness :
  to_artifact_set (listing [artifact "ip" "1.2.3.4"; JStr "1.2.3.4"])
    = Raise AttributeError.
Proof.
  apply (to_artifact_set_raises_iff _
           [artifact "ip" "1.2.3.4"; JStr "1.2.3.4"] AttributeError).
  - apply entries_listed. reflexivity.
  - split; [reflexivity|]. exists (JStr "1.2.3.4").
    split; [right; left|]. intros (d & Hd & _). discriminate Hd.
Defined.

Lemma to_artifact_set_not_a_list_witness :
  to_artifact_set (JDict [("artifacts", JNull)]) = Raise TypeError.
Proof.
  exact (to_artifact_set_not_a_list [("artifacts", JNull)] JNull eq_refl).
Defined.

Lemma twice_mapped_map :
  to_phase_map twice_mapped =
    Ok (<[ ("ip", "1.2.3.4")%string := JStr "Persistence" ]>
          (<[ ("ip", "1.2.3.4")%string := JStr "Initial Access" ]> ∅)).
Proof. reflexivity. Qed.

Lemma phase_map_normal_witness :
  truthy (JStr "Persistence") = true ∧
  normal_type "ip" ∧ normal_value "1.2.3.4".
Proof.
  apply (phase_map_normal twice_mapped _ ("ip", "1.2.3.4")%string
           (JStr "Persistence") twice_mapped_map).
  apply lookup_insert_eq.
Defined.

Lemma phase_map_keys_witness :
  ∃ M, to_phase_map twice_mapped = Ok M ∧
    ∀ k, k ∈ dom M ↔
      ∃ g S, g ∈ groups_of_twice_mapped ∧ truthy g.1 = true ∧
        to_artifact_set (listing g.2) = Ok S ∧ k ∈ S.
Proof.
  exact (phase_map_keys twice_mapped _ groups_of_twice_mapped
           twice_mapped_listed twice_mapped_groups twice_mapped_ok).
Defined.

Lemma to_phase_map_skips_group_witness :
  to_phase_map
    (JDict [("kill_chain_mapping", JList [
       JDict [("phase", JStr "");
              ("artifacts", JList [artifact "ip" "1.2.3.4"])];
       JDict [("phase", JStr "Persistence");
              ("artifacts", JList [artifact "ip" "1.2.3.4 "])]])]) =
  to_phase_map
    (JDict [("kill_chain_mapping", JList [
       JDict [("phase", JStr "Persistence");
              ("artifacts", JList [artifact "ip" "1.2.3.4 "])]])]).
Proof.
  apply (to_phase_map_skips_group _ _ []
           [JDict [("phase", JStr "Persistence");
                   ("artifacts", JList [artifact "ip" "1.2.3.4 "])]]
           (JDict [("phase", JStr "");
                   ("artifacts", JList [artifact "ip" "1.2.3.4"])])
           (JStr "", [artifact "ip" "1.2.3.4"])).
  - apply entries_listed. reflexivity.
  - apply entries_listed. reflexivity.
  - eexists. split; [reflexivity|]. split; [reflexivity|].
    apply group_listed. reflexivity.
  - repeat constructor.
  - left. reflexivity.
Defined.

Lemma to_phase_map_not_groups_witness :
  to_phase_map (JDict [("kill_chain_mapping", JList [JStr "Persistence"])])
    = Raise AttributeError.
Proof.
  apply (to_phase_map_not_groups
           [("kill_chain_mapping", JList [JStr "Persistence"])]
           (JList [JStr "Persistence"]) eq_refl).
  intros dp. discriminate.
Defined.

Lemma predicted_nonempty : predicted ≠ ∅.
Proof.
  intros H. apply (not_elem_of_empty (C := gset (string * string)) hash_abc).
  rewrite <- H. apply elem_of_union_l, elem_of_singleton. reflexivity.
Qed.

Lemma precision_recall_on_subsets_witness :
  ∃ p r f,
    precision_recall_f1 Float.round {[ hash_abc ]} truth = Ok (p, r, f) ∧
    p == 1.
Proof.
  destruct (precision_recall_on_subsets Float.round round_proper round_1
              {[ hash_abc ]} truth) as (p & r & f & Heq & Hp & _).
  exists p, r, f. split; [exact Heq|]. apply Hp.
  - apply union_subseteq_l.
  - apply non_empty_singleton_L.
Defined.

Lemma precision_recall_f1_perfect_witness :
  ∃ p r f,
    precision_recall_f1 Float.round predicted predicted = Ok (p, r, f) ∧
    p == 1 ∧ r == 1 ∧ f == 1.
Proof.
  exact (precision_recall_f1_perfect Float.round round_proper round_1
           round_double predicted predicted_nonempty).
Defined.

Lemma mapping_accuracy_perfect_witness :
  ∃ acc,
    mapping_accuracy String.eqb Float.round truth_map truth_map = Ok acc ∧
    acc == 1.
Proof.
  apply (mapping_accuracy_perfect Float.round round_proper round_1
           String.eqb truth_map).
  - intros k x _. apply String.eqb_refl.
  - apply insert_non_empty.
Defined.

Lemma mapping_accuracy_swap_witness :
  mapping_accuracy String.eqb Float.round predicted_map truth_map =
  mapping_accuracy String.eqb Float.round truth_map predicted_map.
Proof.
  exact (mapping_accuracy_swap String.eqb Float.round predicted_map
           truth_map String.eqb_sym).
Defined.

Lemma scores_positive_iff_shared_witness :
  ∃ p r f,
    precision_recall_f1 Float.round predicted truth = Ok (p, r, f) ∧
    0 < p ∧ 0 < r ∧ 0 < f.
Proof.
  destruct (scores_positive_iff_shared Float.round round_proper round_0
              round_gt0 predicted truth) as (p & r & f & Heq & _ & Hpos).
  exists p, r, f. split; [exact Heq|]. apply Hpos.
  intros Hdisj. apply (Hdisj hash_abc);
    apply elem_of_union_l, elem_of_singleton; reflexivity.
Defined.

Lemma mapping_accuracy_zero_iff_witness :
  ∃ acc,
    mapping_accuracy String.eqb Float.round predicted_map truth_map
      = Ok acc ∧
    (acc == 0 ↔
       ∀ k a b, predicted_map !! k = Some a → truth_map !! k = Some b →
         String.eqb a b = false).
Proof.
  exact (mapping_accuracy_zero_iff Float.round round_proper round_0
           round_gt0 String.eqb predicted_map truth_map).
Defined.

Lemma score_documents_absent_witness :
  ∃ p r f acc,
    score_documents Float.round (JDict [])
      (JDict [("artifacts", extraction)]) = Ok (p, r, f, acc) ∧
    p == 0 ∧ r == 0 ∧ f == 0 ∧ acc == 0.
Proof.
  exact (score_documents_absent Float.round round_proper round_0
           [] [("artifacts", extraction)] _ _ eq_refl eq_refl
           extraction_set eq_refl).
Defined.

Lemma twice_mapped_strings (k : string * string) (x : json) :
  (<[ ("ip", "1.2.3.4")%string := JStr "Persistence" ]>
     (<[ ("ip", "1.2.3.4")%string := JStr "Initial Access" ]> ∅)
   : gmap (string * string) json) !! k = Some x →
  ∃ s, x = JStr s.
Proof.
  intros [[_ <-]|[_ H]]%lookup_insert_Some; [by eexists|].
  apply lookup_insert_Some in H as [[_ <-]|[_ H]]; [by eexists|].
  by rewrite lookup_empty in H.
Qed.

Lemma score_documents_self_witness :
  ∃ p r f acc,
    score_documents Float.round
      (JDict [("artifacts", extraction);
              ("kill_chain_analysis", twice_mapped)])
      (JDict [("artifacts", extraction);
              ("kill_chain_analysis", twice_mapped)]) = Ok (p, r, f, acc) ∧
    p == 1 ∧ r == 1 ∧ f == 1 ∧ acc == 1.
Proof.
  destruct (score_documents_self Float.round round_proper round_0 round_1
              round_double
              [("artifacts", extraction);
               ("kill_chain_analysis", twice_mapped)] _ _
              extraction_set twice_mapped_map twice_mapped_strings)
    as (p & r & f & acc & Heq & H1 & _ & A1 & _).
  exists p, r, f, acc. split; [exact Heq|].
  destruct H1 as (Hp & Hr & Hf).
  { intros H.
    apply (not_elem_of_empty (C := gset (string * string))
             ("ip", "1.2.3.4")%string).
    rewrite <- H. apply elem_of_union_l, elem_of_singleton. reflexivity. }
  split; [exact Hp|]. split; [exact Hr|]. split; [exact Hf|].
  apply A1. apply insert_non_empty.
Defined.

Lemma parse_response_returns_witness :
  (parse_response sample_loads " {} ").2 = Ok (JDict []) ↔
    parsed sample_loads (strip " {} ") (JDict []) ∧ sized_object (JDict []).
Proof.
  exact (parse_response_returns sample_loads " {} " (JDict [])
           sample_loads_empty).
Defined.


End MoreSamples.
